(** * cpp_sandbox: a shallow embedding of the teaching examples

    The development follows the translation units of the repository:
    - [ConstexprMap] : [constexpr_map.cc], the fixed lookup table [Map];
    - [Numeric]      : [numeric.cc], sums, reductions and prefix sums;
    - [Algorithm]    : [algorithm.cc], the [unique] demonstration;
    - [Iterators]    : [iterators.cc], the owning container [DynamicArray]
                       and its random-access [iterator].

    Part I holds the embedding, Part II the properties.  Integers are [Z];
    conversions between [int] and [std::size_t] are written out.  Exceptions
    and undefined behaviour are explicit results. *)

From stdpp Require Import gmap strings list fin_maps pretty.
From Stdlib Require Import ZArith Lia.

Open Scope Z_scope.

(** * Part I: the embedding *)

(** ** Shared vocabulary of the C++ abstract machine *)
Module Cxx.

(** The line feed that ends the diagnostic messages. *)
Definition nl : string := String (Ascii.ascii_of_nat 10) EmptyString.

(** The exceptions the examples can raise. *)
Inductive exn : Type :=
| range_error (what : string)
| bad_array_new_length.

(** Ways in which an execution leaves the defined part of the language. *)
Inductive fault : Type :=
| InvalidIterator
| InvalidPointer
| OutOfBounds
| NoSuchObject
| DoubleFree (l : nat)
| MismatchedDelete (l : nat).

(** Outcome of a computation. *)
Inductive result (A : Type) : Type :=
| Ok (a : A)
| Throw (e : exn)
| Undefined (f : fault).
Arguments Ok {A} a.
Arguments Throw {A} e.
Arguments Undefined {A} f.

(** Widths of the integer types of the LP64 targets. *)
Definition INT_MIN : Z := - 2 ^ 31.
Definition INT_MAX : Z := 2 ^ 31 - 1.
Definition PTRDIFF_MAX : Z := 2 ^ 63 - 1.

(** Conversion of an integer to [std::size_t]: reduction modulo [2^64]. *)
Definition to_size_t (z : Z) : Z := z mod 2 ^ 64.

(** Conversion of an integer to [int]: the two's complement representative
    in [INT_MIN .. INT_MAX]. *)
Definition to_int (z : Z) : Z := (z + 2 ^ 31) mod 2 ^ 32 - 2 ^ 31.

(** Arithmetic of [int].  Signed overflow is undefined in the language; the
    model gives it the wrapped value the two's complement targets produce.
    Division truncates toward zero. *)
Definition int_add (a b : Z) : Z := to_int (a + b).
Definition int_sub (a b : Z) : Z := to_int (a - b).
Definition int_mul (a b : Z) : Z := to_int (a * b).
Definition int_div (a b : Z) : Z := to_int (Z.quot a b).
Definition int_rem (a b : Z) : Z := Z.rem a b.

(** Modelled from the spec: [std::find_if] belongs to the standard library
    and is not part of the repository sources.  It scans the range, given
    as a list, in order and returns the position of the first element that
    satisfies [pred]; the length of the list stands for the end iterator. *)
Fixpoint find_if {A : Type} (pred : A -> bool) (l : list A) : nat :=
  match l with
  | [] => O
  | x :: rest => if pred x then O else S (find_if pred rest)
  end.

(** Modelled from the spec: [std::iota] belongs to the standard library and
    is not part of the repository sources.  It fills [n] consecutive
    positions with [value], [value + 1], ... *)
Fixpoint iota (n : nat) (value : Z) : list Z :=
  match n with
  | O => []
  | S k => value :: iota k (int_add value 1)
  end.

(** Modelled from the spec: [std::count_if] belongs to the standard library
    and is not part of the repository sources.  The predicate returns an
    [int]: an element is counted when the returned value converts to
    [true], that is, is not 0. *)
Fixpoint count_if (pred : Z -> Z) (l : list Z) : Z :=
  match l with
  | [] => 0
  | e :: rest => (if bool_decide (pred e = 0) then 0 else 1) + count_if pred rest
  end.

End Cxx.

(** ** constexpr_map.cc *)
Module ConstexprMap.
Import Cxx.

Section Map.
Context {KeyType ValueType : Type} `{EqDecision KeyType}.
(** [std::format("{}", key)] for the key type. *)
Variable format_key : KeyType -> string.

(** [class Map]: the array of pairs handed to the constructor. *)
Record Map : Type := { data_ : list (KeyType * ValueType) }.

(** The exception raised on a miss. *)
Definition not_found (key : KeyType) : exn :=
  range_error (format_key key ++ " not found in map." ++ nl).

(** [Map::at]. *)
Definition at_ (m : Map) (key : KeyType) : result ValueType :=
  let it := find_if (fun kv => bool_decide (kv.1 = key)) (data_ m) in
  if decide (it = length (data_ m)) then Throw (not_found key)
  else match data_ m !! it with
       | Some kv => Ok kv.2
       | None => Undefined InvalidIterator
       end.

End Map.

Arguments Map : clear implicits.

(** A string formats as itself. *)
Definition format_string (s : string) : string := s.

(** The table of [main]: [Map<std::string, int, 3>]. *)
Definition data : list (string * Z) :=
  [("red"%string, 1); ("blue"%string, 2); ("green"%string, 3)].
Definition map : Map string Z := {| data_ := data |}.

End ConstexprMap.

(** ** numeric.cc *)
Module Numeric.
Import Cxx.

Section Generic.
Context {T : Type}.
Variable binary_op : T -> T -> T.

(** Modelled from the spec: [std::accumulate] belongs to the standard
    library and is not part of the repository sources.  It is the manual
    sequential left fold: [init] is combined with the elements one after the
    other, first to last. *)
Fixpoint accumulate (l : list T) (init : T) : T :=
  match l with
  | [] => init
  | x :: rest => accumulate rest (binary_op init x)
  end.

(** Modelled from the spec: [std::reduce] belongs to the standard library and
    is not part of the repository sources.  The spec lets the order of
    combination vary; the sequential overload called by [main] on
    random-access iterators combines the elements four at a time, pairwise,
    while at least four remain, and one at a time afterwards. *)
Fixpoint reduce (l : list T) (init : T) : T :=
  match l with
  | x0 :: x1 :: x2 :: x3 :: rest =>
      let v1 := binary_op x0 x1 in
      let v2 := binary_op x2 x3 in
      let v3 := binary_op v1 v2 in
      reduce rest (binary_op init v3)
  | _ => accumulate l init
  end.

(** Any other order of combination the spec permits: a parenthesisation of
    the sequence [init, x0, x1, ...], the elements kept in their order. *)
Inductive grouping : Type :=
| One (x : T)
| Join (g1 g2 : grouping).

Fixpoint elements_of (g : grouping) : list T :=
  match g with
  | One x => [x]
  | Join g1 g2 => elements_of g1 ++ elements_of g2
  end.

Fixpoint combine (g : grouping) : T :=
  match g with
  | One x => x
  | Join g1 g2 => binary_op (combine g1) (combine g2)
  end.

(** The running part of [std::inclusive_scan], the overload with a seed:
    every step stores [init = binary_op(init, *first)]. *)
Fixpoint inclusive_scan_init (l : list T) (init : T) : list T :=
  match l with
  | [] => []
  | x :: rest =>
      let init' := binary_op init x in
      init' :: inclusive_scan_init rest init'
  end.

(** Modelled from the spec: [std::inclusive_scan] belongs to the standard
    library and is not part of the repository sources.  The first element is
    stored as it is and seeds the running combination of the others; the
    result is the sequence of the values stored, in order. *)
Definition inclusive_scan (l : list T) : list T :=
  match l with
  | [] => []
  | x :: rest => x :: inclusive_scan_init rest x
  end.

End Generic.

Arguments grouping : clear implicits.

(** [sum_gauss] of [main]. *)
Definition sum_gauss (first last step : Z) : Z :=
  int_div (int_mul (int_div (int_add (int_sub last first) 1) step)
                   (int_add last first)) 2.

(** [v1] of [main]: five elements filled by [std::iota] from 1. *)
Definition v1 : list Z := iota 5 1.

(** [std::plus()] at [int]. *)
Definition plus : Z -> Z -> Z := int_add.

(** [sum1], [sum2] and [psum2] of [main]. *)
Definition sum1 : Z := accumulate plus v1 0.
Definition sum2 : Z := reduce plus v1 0.
Definition psum2 : list Z := inclusive_scan plus v1.

Section TwoRanges.
Context {T : Type}.
Variables binary_op1 binary_op2 : T -> T -> T.

(** Modelled from the spec: [std::inner_product] belongs to the standard
    library and is not part of the repository sources.  The two sequences
    are combined element by element with [binary_op2] and the results are
    folded into [init] with [binary_op1], first to last; the second sequence
    is read in step with the first, and reading past its end is undefined. *)
Fixpoint inner_product (l1 l2 : list T) (init : T) : result T :=
  match l1 with
  | [] => Ok init
  | x :: l1' =>
      match l2 with
      | [] => Undefined OutOfBounds
      | y :: l2' => inner_product l1' l2' (binary_op1 init (binary_op2 x y))
      end
  end.

(** Modelled from the spec: [std::transform_reduce] belongs to the standard
    library and is not part of the repository sources.  Like [reduce], the
    sequential overload on random-access iterators combines four products
    at a time, pairwise, while at least four elements remain, and one at a
    time afterwards. *)
Fixpoint transform_reduce (l1 l2 : list T) (init : T) : result T :=
  match l1 with
  | x0 :: x1 :: x2 :: x3 :: l1' =>
      match l2 with
      | y0 :: y1 :: y2 :: y3 :: l2' =>
          let v1 := binary_op1 (binary_op2 x0 y0) (binary_op2 x1 y1) in
          let v2 := binary_op1 (binary_op2 x2 y2) (binary_op2 x3 y3) in
          let v3 := binary_op1 v1 v2 in
          transform_reduce l1' l2' (binary_op1 init v3)
      | _ => Undefined OutOfBounds
      end
  | _ => inner_product l1 l2 init
  end.

End TwoRanges.

(** [std::multiplies()] at [int]. *)
Definition multiplies : Z -> Z -> Z := int_mul.

(** [v2] of [main]: five elements filled with -1; [prod1] and [prod2]. *)
Definition v2 : list Z := replicate 5 (-1).
Definition prod1 : result Z := inner_product plus multiplies v1 v2 0.
Definition prod2 : result Z := transform_reduce plus multiplies v1 v2 0.

End Numeric.

(** ** algorithm.cc *)
Module Algorithm.
Import Cxx.

Section Unique.
Context {T : Type} `{EqDecision T}.

(** The copying loop of [std::unique]: [dest] is the element kept last; an
    element of the rest is kept, and becomes [dest], when it differs from
    [dest]. *)
Fixpoint unique_from (dest : T) (rest : list T) : list T :=
  match rest with
  | [] => []
  | x :: rest' =>
      if decide (dest = x) then unique_from dest rest'
      else x :: unique_from x rest'
  end.

(** The elements [std::unique] keeps, in order. *)
Definition kept (v : list T) : list T :=
  match v with
  | [] => []
  | x :: rest => x :: unique_from x rest
  end.

(** Modelled from the spec: [std::unique] belongs to the standard library and
    is not part of the repository sources.  It removes consecutive
    duplicates in place and returns the boundary: the kept elements are moved
    to the front, the positions from the boundary on are never written and
    keep what they held. *)
Definition std_unique (v : list T) : list T * nat :=
  let k := kept v in (k ++ drop (length k) v, length k).

(** [v.erase(first, v.end())]: truncation at position [first]. *)
Definition erase_to_end (v : list T) (first : nat) : list T := take first v.

(** No two neighbours of the sequence are equal. *)
Fixpoint adjacent_distinct (l : list T) : Prop :=
  match l with
  | x :: rest =>
      match rest with
      | y :: _ => x <> y /\ adjacent_distinct rest
      | [] => True
      end
  | [] => True
  end.

(** The sequence made of [counts !! i] copies of [heads !! i], for each
    position [i] in turn. *)
Definition expand (counts : list nat) (heads : list T) : list T :=
  concat (zip_with replicate counts heads).

End Unique.

(** The sequence [0,0,1,1,...] in which each value of [0 .. n-1] appears
    exactly twice consecutively, and the sequence [0,1,...,n-1]. *)
Definition doubled (n : nat) : list Z :=
  flat_map (fun k => [Z.of_nat k; Z.of_nat k]) (seq 0 n).
Definition increasing (n : nat) : list Z := Z.of_nat <$> seq 0 n.

(** The lambda [is_even] of [unique()]: it returns [e % 2]. *)
Definition is_even (e : Z) : Z := int_rem e 2.

(** The filling loop of [unique()]: [i] runs over [n] values of
    [std::size_t] from 0 and is pushed twice, converted to [int]. *)
Fixpoint push_twice (count : nat) (i : Z) (v1 : list Z) : list Z :=
  match count with
  | O => v1
  | S c => push_twice c (to_size_t (i + 1)) ((v1 ++ [to_int i]) ++ [to_int i])
  end.

Definition v1_initial (n : nat) : list Z := push_twice n 0 [].

(** [v1.erase(std::unique(v1.begin(), v1.end()), v1.end())]. *)
Definition v1_final (n : nat) : list Z :=
  let '(v, boundary) := std_unique (v1_initial n) in erase_to_end v boundary.

(** Conversion of the [int] a predicate returns to [bool]. *)
Definition to_bool (z : Z) : bool := negb (bool_decide (z = 0)).

(** Modelled from the spec: [std::remove_if] belongs to the standard library
    and is not part of the repository sources.  The elements that fail the
    predicate are moved to the front in their order and the boundary is
    returned; the positions from the boundary on keep what they held. *)
Definition std_remove_if (pred : Z -> bool) (v : list Z) : list Z * nat :=
  let k := filter (fun e => pred e = false) v in (k ++ drop (length k) v, length k).

(** Modelled from the spec: [std::erase_if] on a vector belongs to the
    standard library and is not part of the repository sources.  It is the
    removal followed by the truncation at the boundary. *)
Definition std_erase_if (v : list Z) (pred : Z -> bool) : list Z :=
  let '(v', first) := std_remove_if pred v in erase_to_end v' first.

(** [remove_erase()], [n] being the size of the vectors: [v1] after the
    remove-erase idiom and [v2] after [std::erase_if]. *)
Definition remove_erase (n : nat) : list Z * list Z :=
  let v1 := iota n 1 in
  let v2 := [] ++ v1 in
  let '(v, first) := std_remove_if (fun e => to_bool (is_even e)) v1 in
  (erase_to_end v first, std_erase_if v2 (fun e => to_bool (is_even e))).

End Algorithm.

(** ** temporary_objects.cc *)
Module TemporaryObjects.
Import Cxx.

(** [std::map<std::string, int>]: the entries in increasing order of their
    keys, the order in which the map is traversed. *)
Definition string_int_map : Type := list (string * Z).

(** [m[key]++]: the entry is created with the value 0 when it is missing. *)
Fixpoint increment (key : string) (m : string_int_map) : string_int_map :=
  match m with
  | [] => [(key, int_add 0 1)]
  | (k, v) :: rest =>
      match String.compare key k with
      | Lt => (key, int_add 0 1) :: m
      | Eq => (k, int_add v 1) :: rest
      | Gt => (k, v) :: increment key rest
      end
  end.

(** The static member [n_calls_map] and the standard output, line by line. *)
Record world : Type := { n_calls_map : string_int_map; output : list string }.

(** The members of [Moveable]. *)
Inductive member : Type :=
| Constructor (data : Z)
| Destructor
| CopyConstructor
| MoveConstructor
| CopyAssignment
| MoveAssignment
| reset_n_calls
| print_n_calls.

(** The key a special member function counts under; the spelling is that
    of the source. *)
Definition key_of (f : member) : option string :=
  match f with
  | Constructor _ => Some "Constructor"
  | Destructor => Some "Destructor"
  | CopyConstructor => Some "Copy constructor"
  | MoveConstructor => Some "Move constructor"
  | CopyAssignment => Some "Copy assignment"
  | MoveAssignment => Some "Move assignement"
  | reset_n_calls | print_n_calls => None
  end%string.

(** The line a special member function writes with [std::puts]. *)
Definition line_of (f : member) : list string :=
  match f with
  | Constructor _ => ["Moveable();"]
  | Destructor => ["~Moveable();"]
  | CopyConstructor => ["Moveable(const Moveable&);"]
  | MoveConstructor => ["Moveable(Moveable &&);"]
  | CopyAssignment => ["Moveable& operator=(const Moveable&);"]
  | MoveAssignment => ["Moveable& operator=(Moveable &&);"]
  | reset_n_calls | print_n_calls => []
  end%string.

(** The lines of [print_n_calls]: one per entry, in the order of the map. *)
Definition report (m : string_int_map) : list string :=
  (fun kv => (kv.1 ++ ": " ++ pretty kv.2)%string) <$> m.

(** One call. *)
Definition call (w : world) (f : member) : world :=
  match f with
  | reset_n_calls => {| n_calls_map := []; output := output w |}
  | print_n_calls => {| n_calls_map := n_calls_map w; output := output w ++ report (n_calls_map w) |}
  | _ =>
      {| n_calls_map := match key_of f with
                        | Some key => increment key (n_calls_map w)
                        | None => n_calls_map w
                        end;
         output := output w ++ line_of f |}
  end.

Definition calls (w : world) (fs : list member) : world := fold_left call fs w.

(** The numbers of calls of each special member function. *)
Record tally : Type := {
  constructors : Z; copy_assignments : Z; copy_constructors : Z;
  destructors : Z; move_assignments : Z; move_constructors : Z
}.

Definition no_calls : tally :=
  {| constructors := 0; copy_assignments := 0; copy_constructors := 0;
     destructors := 0; move_assignments := 0; move_constructors := 0 |}.

Definition count (t : tally) (f : member) : tally :=
  match f with
  | Constructor _ =>
      {| constructors := constructors t + 1; copy_assignments := copy_assignments t;
         copy_constructors := copy_constructors t; destructors := destructors t;
         move_assignments := move_assignments t; move_constructors := move_constructors t |}
  | CopyAssignment =>
      {| constructors := constructors t; copy_assignments := copy_assignments t + 1;
         copy_constructors := copy_constructors t; destructors := destructors t;
         move_assignments := move_assignments t; move_constructors := move_constructors t |}
  | CopyConstructor =>
      {| constructors := constructors t; copy_assignments := copy_assignments t;
         copy_constructors := copy_constructors t + 1; destructors := destructors t;
         move_assignments := move_assignments t; move_constructors := move_constructors t |}
  | Destructor =>
      {| constructors := constructors t; copy_assignments := copy_assignments t;
         copy_constructors := copy_constructors t; destructors := destructors t + 1;
         move_assignments := move_assignments t; move_constructors := move_constructors t |}
  | MoveAssignment =>
      {| constructors := constructors t; copy_assignments := copy_assignments t;
         copy_constructors := copy_constructors t; destructors := destructors t;
         move_assignments := move_assignments t + 1; move_constructors := move_constructors t |}
  | MoveConstructor =>
      {| constructors := constructors t; copy_assignments := copy_assignments t;
         copy_constructors := copy_constructors t; destructors := destructors t;
         move_assignments := move_assignments t; move_constructors := move_constructors t + 1 |}
  | reset_n_calls | print_n_calls => t
  end.

(** The map that holds a tally: the functions called at least once, under
    their keys, in the order of the keys. *)
Definition entry (key : string) (n : Z) : string_int_map :=
  if bool_decide (n = 0) then [] else [(key, n)].

Definition table (t : tally) : string_int_map :=
  (entry "Constructor" (constructors t) ++ entry "Copy assignment" (copy_assignments t)
   ++ entry "Copy constructor" (copy_constructors t) ++ entry "Destructor" (destructors t)
   ++ entry "Move assignement" (move_assignments t)
   ++ entry "Move constructor" (move_constructors t)).

(** Every number of calls is non-negative and below [INT_MAX], the largest
    value a counter can be incremented from. *)
Definition countable (t : tally) : Prop :=
  0 <= constructors t < INT_MAX /\ 0 <= copy_assignments t < INT_MAX
  /\ 0 <= copy_constructors t < INT_MAX /\ 0 <= destructors t < INT_MAX
  /\ 0 <= move_assignments t < INT_MAX /\ 0 <= move_constructors t < INT_MAX.

(** The number of calls a tally stands for. *)
Definition total (t : tally) : Z :=
  constructors t + copy_assignments t + copy_constructors t + destructors t
  + move_assignments t + move_constructors t.

(** The three blocks of [main], as the calls the language makes: the
    objects and the array elements are destroyed when the block ends. *)
Definition block_copy : list member :=
  [Constructor 10; Constructor 20; CopyConstructor; CopyConstructor;
   Destructor; Destructor; Destructor; Destructor].
Definition block_move : list member :=
  [Constructor 10; Constructor 20; MoveConstructor; MoveConstructor;
   Destructor; Destructor; Destructor; Destructor].
Definition block_direct : list member :=
  [Constructor 10; Constructor 20; Destructor; Destructor].

Definition main : world :=
  calls {| n_calls_map := []; output := [] |}
        (block_copy ++ [print_n_calls; reset_n_calls]
         ++ block_move ++ [print_n_calls; reset_n_calls]
         ++ block_direct ++ [print_n_calls]).

End TemporaryObjects.

(** ** iterators.cc *)
Module Iterators.
Import Cxx.

(** A pointer into the heap: the allocation it points into and the element
    offset inside it.  [blk = None] is the null segment; [nullptr] is its
    origin.  Pointer arithmetic moves the offset and is not checked, as in
    the source. *)
Record pointer : Type := { blk : option nat; off : Z }.

Definition nullptr : pointer := {| blk := None; off := 0 |}.

#[global] Instance pointer_eq_dec : EqDecision pointer.
Proof. solve_decision. Defined.

Definition ptr_add (p : pointer) (k : Z) : pointer :=
  {| blk := blk p; off := off p + k |}.

(** Difference of two pointers, in elements; defined inside one allocation. *)
Definition ptr_diff (p q : pointer) : result Z :=
  if decide (blk p = blk q) then Ok (off p - off q) else Undefined InvalidPointer.

(** The members of [DynamicArray]. *)
Record DynamicArray : Type := { size_ : Z; values_ : pointer }.

(** How [delete p] treats storage obtained from [new T[n]]: the language
    leaves it undefined ([Strict]); for element types without destructor the
    usual implementations release the storage as [delete[] p] does
    ([Lenient]). *)
Inductive delete_mode : Type := Strict | Lenient.

Section DynamicArray.
Context {T : Type}.
(** [T{}], the value of a value-initialised element. *)
Variable value_init : T.
Variable mode : delete_mode.

(** An element of an allocation: [None] is an indeterminate value, as left
    by [new T[n]] for the scalar element type of [main]. *)
Definition cell : Type := option T.

(** The heap: live allocations, the next fresh allocation, and the log of
    the releases, newest first. *)
Record heap : Type := {
  blocks : gmap nat (list cell);
  next_block : nat;
  released : list nat
}.

(** Program state: the [DynamicArray] objects, by their address, and the heap. *)
Record state : Type := { objs : gmap nat DynamicArray; mem : heap }.

Definition M (A : Type) : Type := state -> result (A * state).

Definition ret {A} (a : A) : M A := fun s => Ok (a, s).

Definition bind {A B} (m : M A) (k : A -> M B) : M B :=
  fun s => match m s with
           | Ok (a, s') => k a s'
           | Throw e => Throw e
           | Undefined f => Undefined f
           end.

Definition throw {A} (e : exn) : M A := fun _ => Throw e.
Definition undefined {A} (f : fault) : M A := fun _ => Undefined f.

Notation "'do' x <- m ; k" := (bind m (fun x => k))
  (at level 10, x name, m at level 100, k at level 200).
Notation "m ;; k" := (bind m (fun _ => k))
  (at level 100, k at level 200, right associativity).

(** *** Heap primitives *)

Definition set_mem (h : heap) : M unit :=
  fun s => Ok (tt, {| objs := objs s; mem := h |}).

Definition get_mem : M heap := fun s => Ok (mem s, s).

(** Allocation of [n] elements holding [c]; fails as [new] does when the
    array would exceed the largest object. *)
Definition allocate (n : Z) (c : cell) : M pointer :=
  if bool_decide (PTRDIFF_MAX < n) then throw bad_array_new_length
  else
    do h <- get_mem;
    let l := next_block h in
    set_mem {| blocks := <[l := replicate (Z.to_nat n) c]> (blocks h);
               next_block := S l;
               released := released h |} ;;
    ret {| blk := Some l; off := 0 |}.

(** [new T[n]{}]: value-initialised elements. *)
Definition new_array_value (n : Z) : M pointer := allocate n (Some value_init).

(** [new T[n]]: default-initialised elements. *)
Definition new_array_default (n : Z) : M pointer := allocate n None.

(** Release of the allocation [p] points to. *)
Definition release (p : pointer) : M unit :=
  do h <- get_mem;
  match blk p with
  | None => undefined InvalidPointer
  | Some l =>
      match blocks h !! l with
      | Some _ =>
          if bool_decide (off p = 0) then
            set_mem {| blocks := delete l (blocks h);
                       next_block := next_block h;
                       released := l :: released h |}
          else undefined InvalidPointer
      | None =>
          if bool_decide (l ∈ released h) then undefined (DoubleFree l)
          else undefined InvalidPointer
      end
  end.

(** [delete[] p]. *)
Definition delete_array (p : pointer) : M unit :=
  if decide (p = nullptr) then ret tt else release p.

(** [delete p]; every allocation of this program comes from [new T[n]]. *)
Definition delete_scalar (p : pointer) : M unit :=
  if decide (p = nullptr) then ret tt
  else match mode with
       | Lenient => release p
       | Strict =>
           match blk p with
           | Some l => undefined (MismatchedDelete l)
           | None => undefined InvalidPointer
           end
       end.

(** The [n] elements starting at [p]. *)
Definition read_range (p : pointer) (n : nat) : M (list cell) :=
  if decide (n = O) then ret []
  else
    do h <- get_mem;
    match blk p with
    | None => undefined InvalidPointer
    | Some l =>
        match blocks h !! l with
        | None => undefined InvalidPointer
        | Some cs =>
            if bool_decide (0 <= off p /\ off p + Z.of_nat n <= Z.of_nat (length cs))
            then ret (take n (drop (Z.to_nat (off p)) cs))
            else undefined OutOfBounds
        end
    end.

(** Storing the elements [vs] from [p] on. *)
Definition write_range (p : pointer) (vs : list cell) : M unit :=
  if decide (vs = []) then ret tt
  else
    do h <- get_mem;
    match blk p with
    | None => undefined InvalidPointer
    | Some l =>
        match blocks h !! l with
        | None => undefined InvalidPointer
        | Some cs =>
            if bool_decide (0 <= off p /\ off p + Z.of_nat (length vs) <= Z.of_nat (length cs))
            then
              let i := Z.to_nat (off p) in
              set_mem {| blocks := <[l := take i cs ++ vs ++ drop (i + length vs) cs]> (blocks h);
                         next_block := next_block h;
                         released := released h |}
            else undefined OutOfBounds
        end
    end.

(** Reading and writing through a reference to one element. *)
Definition load (p : pointer) : M cell :=
  do cs <- read_range p 1;
  match cs with
  | c :: _ => ret c
  | [] => undefined OutOfBounds
  end.

Definition store (p : pointer) (v : T) : M unit := write_range p [Some v].

(** Modelled from the spec: [std::copy] belongs to the standard library and
    is not part of the repository sources.  [std::copy(first, last, dest)]
    copies the [last - first] elements from [first] on to [dest] on; for the
    trivially copyable element type the range is moved as one block. *)
Definition copy (first last dest : pointer) : M unit :=
  match ptr_diff last first with
  | Ok n => do vs <- read_range first (Z.to_nat n); write_range dest vs
  | Throw e => throw e
  | Undefined f => undefined f
  end.

(** [std::copy(l.begin(), l.end(), dest)] from an initializer list, as
    above. *)
Definition copy_list (l : list T) (dest : pointer) : M unit :=
  write_range dest (Some <$> l).

(** Modelled from the spec: [std::fill] belongs to the standard library and
    is not part of the repository sources.  [std::fill(first, last, value)]
    stores [value] in the [last - first] elements from [first] on. *)
Definition fill (first last : pointer) (value : T) : M unit :=
  match ptr_diff last first with
  | Ok n => write_range first (replicate (Z.to_nat n) (Some value))
  | Throw e => throw e
  | Undefined f => undefined f
  end.

(** *** Access to the members of an object *)

Definition get (this : nat) : M DynamicArray :=
  fun s => match objs s !! this with
           | Some a => Ok (a, s)
           | None => Undefined NoSuchObject
           end.

Definition put (this : nat) (a : DynamicArray) : M unit :=
  fun s => Ok (tt, {| objs := <[this := a]> (objs s); mem := mem s |}).

Definition set_size_ (this : nat) (n : Z) : M unit :=
  do a <- get this; put this {| size_ := n; values_ := values_ a |}.

Definition set_values_ (this : nat) (p : pointer) : M unit :=
  do a <- get this; put this {| size_ := size_ a; values_ := p |}.

(** The end of the lifetime of the object at [this]. *)
Definition end_lifetime (this : nat) : M unit :=
  fun s => Ok (tt, {| objs := delete this (objs s); mem := mem s |}).

(** *** The special member functions *)

(** [DynamicArray(std::size_t size)]. *)
Definition ctor_size (this : nat) (size : Z) : M unit :=
  do p <- new_array_value size;
  put this {| size_ := size; values_ := p |}.

(** [DynamicArray(std::size_t size, const T &value)]. *)
Definition ctor_fill (this : nat) (size : Z) (value : T) : M unit :=
  ctor_size this size ;;
  do a <- get this;
  fill (values_ a) (ptr_add (values_ a) (size_ a)) value.

(** [DynamicArray(std::initializer_list<T> l)]. *)
Definition ctor_list (this : nat) (l : list T) : M unit :=
  ctor_size this (Z.of_nat (length l)) ;;
  do a <- get this;
  copy_list l (values_ a).

(** [~DynamicArray()]. *)
Definition dtor (this : nat) : M unit :=
  do a <- get this;
  (if decide (values_ a <> nullptr) then delete_array (values_ a) else ret tt) ;;
  end_lifetime this.

(** [DynamicArray(const DynamicArray &other)]. *)
Definition copy_ctor (this other : nat) : M unit :=
  do o <- get other;
  ctor_size this (size_ o) ;;
  do o <- get other;
  do a <- get this;
  copy (values_ o) (ptr_add (values_ o) (size_ o)) (values_ a).

(** [DynamicArray(DynamicArray &&other)]. *)
Definition move_ctor (this other : nat) : M unit :=
  do o <- get other;
  ctor_size this (size_ o) ;;
  do o <- get other;
  do a <- get this;
  copy (values_ o) (ptr_add (values_ o) (size_ o)) (values_ a) ;;
  set_size_ other 0 ;;
  do o <- get other;
  delete_array (values_ o) ;;
  set_values_ other nullptr.

(** [operator=(const DynamicArray &other)]. *)
Definition copy_assign (this other : nat) : M unit :=
  do o <- get other;
  set_size_ this (size_ o) ;;
  do a <- get this;
  delete_array (values_ a) ;;
  do a <- get this;
  do p <- new_array_default (size_ a);
  set_values_ this p ;;
  do o <- get other;
  do a <- get this;
  copy (values_ o) (ptr_add (values_ o) (size_ o)) (values_ a).

(** [operator=(DynamicArray &&other)]. *)
Definition move_assign (this other : nat) : M unit :=
  do o <- get other;
  set_size_ this (size_ o) ;;
  do a <- get this;
  delete_scalar (values_ a) ;;
  do a <- get this;
  do p <- new_array_default (size_ a);
  set_values_ this p ;;
  do o <- get other;
  do a <- get this;
  copy (values_ o) (ptr_add (values_ o) (size_ o)) (values_ a) ;;
  set_size_ other 0 ;;
  do o <- get other;
  delete_scalar (values_ o).

(** *** Vocabulary of the properties *)

(** The container [a] is in a valid state and its elements are [cs]: it
    either holds no storage and is empty, or points to the start of a live
    allocation that holds exactly [cs]. *)
Definition owns (h : heap) (a : DynamicArray) (cs : list cell) : Prop :=
  Z.of_nat (length cs) = size_ a
  /\ size_ a <= PTRDIFF_MAX
  /\ ((values_ a = nullptr /\ cs = [])
      \/ (exists l : nat, values_ a = {| blk := Some l; off := 0 |} /\ blocks h !! l = Some cs)).

(** Live allocations lie below the next fresh one. *)
Definition heap_ok (h : heap) : Prop :=
  forall l : nat, is_Some (blocks h !! l) -> (l < next_block h)%nat.

(** The state before anything is constructed. *)
Definition initial : state :=
  {| objs := ∅; mem := {| blocks := ∅; next_block := O; released := [] |} |}.

(** A block of statements, executed in order. *)
Fixpoint run (stmts : list (M unit)) : M unit :=
  match stmts with
  | [] => ret tt
  | m :: rest => bind m (fun _ => run rest)
  end.

(** The state [s] with the contents of its live allocations replaced. *)
Definition with_blocks (s : state) (b : gmap nat (list cell)) : state :=
  {| objs := objs s;
     mem := {| blocks := b; next_block := next_block (mem s); released := released (mem s) |} |}.

(** The state after [delete[] p] for a null [p] or a [p] that owns storage. *)
Definition after_delete (s : state) (p : pointer) : state :=
  match blk p with
  | Some l => {| objs := objs s;
                 mem := {| blocks := delete l (blocks (mem s));
                           next_block := next_block (mem s);
                           released := l :: released (mem s) |} |}
  | None => s
  end.

(** *** Programs over containers *)

(** The statements that create, copy, move into a new object, copy-assign
    and destroy containers; [this] and [other] are addresses of objects. *)
Inductive op : Type :=
| CtorSize (this : nat) (size : Z)
| CtorFill (this : nat) (size : Z) (value : T)
| CtorList (this : nat) (l : list T)
| CopyCtor (this other : nat)
| MoveCtor (this other : nat)
| CopyAssign (this other : nat)
| Dtor (this : nat).







(** The three changes of state the statements are made of.  [relinquish x]: the
    object at [x] gives up its storage and becomes empty.  [bind_fresh x
    size cs]: the object at [x] takes a fresh allocation holding [cs].
    [forget x]: the lifetime of the object at [x] ends. *)
Definition relinquish (x : nat) (s : state) : state :=
  match objs s !! x with
  | Some a => {| objs := <[x := {| size_ := 0; values_ := nullptr |}]> (objs s);
                 mem := mem (after_delete s (values_ a)) |}
  | None => s
  end.

Definition bind_fresh (x : nat) (size : Z) (cs : list cell) (s : state) : state :=
  {| objs := <[x := {| size_ := size;
                       values_ := {| blk := Some (next_block (mem s)); off := 0 |} |}]> (objs s);
     mem := {| blocks := <[next_block (mem s) := cs]> (blocks (mem s));
               next_block := S (next_block (mem s));
               released := released (mem s) |} |}.

Definition forget (x : nat) (s : state) : state :=
  {| objs := delete x (objs s); mem := mem s |}.

End DynamicArray.

Arguments op : clear implicits.
Arguments cell : clear implicits.
Arguments heap : clear implicits.
Arguments state : clear implicits.
Arguments M : clear implicits.

(** The message of the exception raised by [operator[]]. *)
Definition invalid_index (idx size : Z) : exn :=
  range_error ("Invalid index " ++ pretty idx ++ " for DynamicArray of size "
               ++ pretty size ++ nl).

(** [T &operator[](int idx)]: the comparison converts [idx] to
    [std::size_t]; the result is the reference to [values_[idx]]. *)
Definition subscript (a : DynamicArray) (idx : Z) : result pointer :=
  if bool_decide (size_ a <= to_size_t idx) then Throw (invalid_index idx (size_ a))
  else Ok (ptr_add (values_ a) idx).

(** *** [DynamicArray::iterator] *)
Record iterator : Type := { ptr_ : pointer }.

#[global] Instance iterator_eq_dec : EqDecision iterator.
Proof. solve_decision. Defined.

(** [iterator() = default]. *)
Definition iterator_default : iterator := {| ptr_ := nullptr |}.

(** [operator*]: the reference to the element pointed to. *)
Definition iter_deref (it : iterator) : pointer := ptr_ it.

(** [operator[]]: the reference to [ptr_[diff]]. *)
Definition iter_subscript (it : iterator) (diff : Z) : pointer := ptr_add (ptr_ it) diff.

(** [operator++()] and [operator--()]. *)
Definition iter_pre_inc (it : iterator) : iterator := {| ptr_ := ptr_add (ptr_ it) 1 |}.
Definition iter_pre_dec (it : iterator) : iterator := {| ptr_ := ptr_add (ptr_ it) (-1) |}.

(** [operator++(int)] and [operator--(int)]: the value returned and the
    iterator afterwards. *)
Definition iter_post_inc (it : iterator) : iterator * iterator := (it, iter_pre_inc it).
Definition iter_post_dec (it : iterator) : iterator * iterator := (it, iter_pre_dec it).

(** [operator+=] and [operator-=]. *)
Definition iter_add_assign (it : iterator) (diff : Z) : iterator :=
  {| ptr_ := ptr_add (ptr_ it) diff |}.
Definition iter_sub_assign (it : iterator) (diff : Z) : iterator :=
  {| ptr_ := ptr_add (ptr_ it) (- diff) |}.

(** [operator==] and [operator!=]. *)
Definition iter_eq (lhs rhs : iterator) : bool := bool_decide (ptr_ lhs = ptr_ rhs).
Definition iter_ne (lhs rhs : iterator) : bool := negb (bool_decide (ptr_ lhs = ptr_ rhs)).

(** [operator-(const iterator &, const iterator &)]. *)
Definition iter_diff (lhs rhs : iterator) : result Z := ptr_diff (ptr_ lhs) (ptr_ rhs).

(** [operator-(const iterator &, const difference_type &)] and
    [operator+(const iterator &, const difference_type &)]. *)
Definition iter_minus (it : iterator) (diff : Z) : iterator :=
  {| ptr_ := ptr_add (ptr_ it) (- diff) |}.
Definition iter_plus (it : iterator) (diff : Z) : iterator :=
  {| ptr_ := ptr_add (ptr_ it) diff |}.

(** [begin()] and [end()]. *)
Definition begin_ (a : DynamicArray) : iterator := {| ptr_ := values_ a |}.
Definition end_ (a : DynamicArray) : iterator :=
  {| ptr_ := ptr_add (values_ a) (size_ a) |}.

(** [operator+(const difference_type &, const iterator &)]: [diff + it.ptr_]. *)
Definition iter_plus_left (diff : Z) (it : iterator) : iterator :=
  {| ptr_ := ptr_add (ptr_ it) diff |}.

(** [cbegin()] and [cend()]. *)
Definition cbegin (a : DynamicArray) : iterator := {| ptr_ := values_ a |}.
Definition cend (a : DynamicArray) : iterator :=
  {| ptr_ := ptr_add (values_ a) (size_ a) |}.

Section Loops.
Context {T A : Type}.

(** The loop [for (; first != last; ++first) acc = body(ref, acc)], [ref]
    being [*first], over the operators of the iterator: [body] receives [ref]
    and the values the loop carries.  [fuel] bounds the number of
    iterations; the result is [None] when it does not suffice. *)
Fixpoint for_loop (fuel : nat) (first last : iterator)
    (body : pointer -> A -> M T A) (acc : A) : M T (option A) :=
  if iter_ne first last then
    match fuel with
    | O => ret None
    | S fuel' =>
        bind (body (iter_deref first) acc)
             (fun acc' => for_loop fuel' (iter_pre_inc first) last body acc')
    end
  else ret (Some acc).

End Loops.

(** A traversal that reads: the elements met, in the order met. *)
Definition read_all {T : Type} (fuel : nat) (first last : iterator)
    : M T (option (list (cell T))) :=
  for_loop fuel first last (fun p seen => bind (load p) (fun c => ret (seen ++ [c]))) [].

(** A traversal that writes [value] through every reference. *)
Definition write_all {T : Type} (fuel : nat) (first last : iterator) (value : T)
    : M T (option unit) :=
  for_loop fuel first last (fun p _ => store p value) tt.

(** *** [main] *)

(** Conversion to [unsigned int], the element type [uint] of [main], and
    its addition. *)
Definition to_uint (z : Z) : Z := z mod 2 ^ 32.
Definition uint_add (a b : Z) : Z := to_uint (a + b).

(** Operations on elements that may be indeterminate: the result of an
    operation on an indeterminate value is indeterminate. *)
Definition cell_plus (c1 c2 : cell Z) : cell Z :=
  match c1, c2 with
  | Some a, Some b => Some (uint_add a b)
  | _, _ => None
  end.

Definition store_cell {T : Type} (p : pointer) (c : cell T) : M T unit :=
  write_range p [c].

(** Modelled from the spec: [std::ranges::iota] belongs to the standard
    library and is not part of the repository sources.  It walks the range
    from [begin()] to [end()], assigns the running value, converted to the
    element type, through the cursor and increments the value, an [int]. *)
Definition ranges_iota (fuel : nat) (r : DynamicArray) (value : Z) : M Z (option Z) :=
  for_loop fuel (begin_ r) (end_ r)
    (fun p value => bind (store p (to_uint value)) (fun _ => ret (int_add value 1)))
    value.

(** Modelled from the spec: [std::ranges::fill] belongs to the standard
    library and is not part of the repository sources.  It walks the range
    and assigns the value, converted to the element type, through the
    cursor. *)
Definition ranges_fill (fuel : nat) (r : DynamicArray) (value : Z) : M Z (option unit) :=
  write_all fuel (begin_ r) (end_ r) (to_uint value).

(** The step of the running part of the scan: the element read is added to
    the running value, which is stored through [result]; [result] moves on. *)
Definition scan_step (p : pointer) (acc : iterator * cell Z) : M Z (iterator * cell Z) :=
  bind (load p) (fun c =>
  let init := cell_plus acc.2 c in
  bind (store_cell (iter_deref acc.1) init) (fun _ =>
  ret ((iter_post_inc acc.1).2, init))).

(** Modelled from the spec: [std::inclusive_scan] belongs to the standard
    library and is not part of the repository sources.  Here it runs on
    cursors, with [std::plus] of the element type: the first element is
    stored as it is and seeds the running sum of the others.  [result] may
    be [first], as in [main]. *)
Definition inclusive_scan (fuel : nat) (first last result : iterator)
    : M Z (option iterator) :=
  if iter_ne first last then
    bind (load (iter_deref first)) (fun init =>
    bind (store_cell (iter_deref result) init) (fun _ =>
    let result' := (iter_post_inc result).2 in
    let first' := iter_pre_inc first in
    if iter_ne first' last then
      bind (for_loop fuel first' last scan_step (result', init))
           (fun r => ret (fst <$> r))
    else ret (Some result')))
  else ret (Some result).

(** Modelled from the spec: [std::ranges::equal] belongs to the standard
    library and is not part of the repository sources.  It tells whether the
    two ranges have the same length and equal elements; the model reads both
    ranges through the cursors and compares what it has read. *)
Definition ranges_equal (fuel : nat) (r1 r2 : DynamicArray) : M Z (option bool) :=
  bind (read_all fuel (begin_ r1) (end_ r1)) (fun cs1 =>
  bind (read_all fuel (begin_ r2) (end_ r2)) (fun cs2 =>
  ret (match cs1, cs2 with
       | Some l1, Some l2 => Some (bool_decide (l1 = l2))
       | _, _ => None
       end))).

(** The line [e1 << " " << e2] of a pair of elements; an indeterminate element has
    no text. *)
Definition pair_line (c1 c2 : cell Z) : option string :=
  match c1, c2 with
  | Some e1, Some e2 => Some (pretty e1 ++ " " ++ pretty e2)%string
  | _, _ => None
  end.

Fixpoint pair_lines (l1 l2 : list (cell Z)) : option (list string) :=
  match l1, l2 with
  | c1 :: l1', c2 :: l2' =>
      match pair_line c1 c2, pair_lines l1' l2' with
      | Some line, Some rest => Some (line :: rest)
      | _, _ => None
      end
  | _, _ => Some []
  end.

(** The loop over [std::ranges::zip_view(dyn_arr_1, dyn_arr_2)]: the pairs
    of elements at equal positions, as far as the shorter range goes. *)
Definition print_pairs (fuel : nat) (r1 r2 : DynamicArray) : M Z (option (list string)) :=
  bind (read_all fuel (begin_ r1) (end_ r1)) (fun cs1 =>
  bind (read_all fuel (begin_ r2) (end_ r2)) (fun cs2 =>
  ret (match cs1, cs2 with
       | Some l1, Some l2 => pair_lines l1 l2
       | _, _ => None
       end))).

(** [main], [N] being the size of the arrays: the lines written to the
    standard output.  [dyn_arr_1] is the object at address 0, [dyn_arr_2]
    the one at address 1; both are destroyed when [main] returns.  The
    result is [None] when the fuel of a loop does not suffice or an
    indeterminate element is used. *)
Definition main (fuel : nat) (N : Z) : M Z (option (list string)) :=
  bind (ctor_size 0 0%nat N) (fun _ =>
  bind (get 0%nat) (fun dyn_arr_1 =>
  bind (ranges_iota fuel dyn_arr_1 1) (fun r1 =>
  bind (ctor_size 0 1%nat N) (fun _ =>
  bind (get 1%nat) (fun dyn_arr_2 =>
  bind (ranges_fill fuel dyn_arr_2 1) (fun r2 =>
  bind (inclusive_scan fuel (begin_ dyn_arr_2) (end_ dyn_arr_2) (begin_ dyn_arr_2)) (fun r3 =>
  bind (ranges_equal fuel dyn_arr_1 dyn_arr_2) (fun eq =>
  bind (print_pairs fuel dyn_arr_1 dyn_arr_2) (fun lines =>
  bind (dtor 1%nat) (fun _ =>
  bind (dtor 0%nat) (fun _ =>
  ret (match r1, r2, r3, eq, lines with
       | Some _, Some _, Some _, Some b, Some ls =>
           Some ((if b then "The arrays are equal" else "The arrays are not equal")%string
                 :: ls)
       | _, _, _, _, _ => None
       end)))))))))))).

(** Two containers of [int] as the constructors from lists leave them:
    [{1, 2, 3}] at address 0 and [{7, 8}] at address 1. *)
Definition two_arrays : state Z :=
  {| objs := <[1%nat := {| size_ := 2; values_ := {| blk := Some 1%nat; off := 0 |} |}]>
               (<[0%nat := {| size_ := 3; values_ := {| blk := Some 0%nat; off := 0 |} |}]> ∅);
     mem := {| blocks := <[1%nat := [Some 7; Some 8]]> (<[0%nat := [Some 1; Some 2; Some 3]]> ∅);
               next_block := 2;
               released := [] |} |}.

End Iterators.

(** * Part II: properties *)

(** ** The fixed lookup table *)
Section MapProperties.
Import Cxx ConstexprMap.
Context {KeyType ValueType : Type} `{EqDecision KeyType}.
Variable format_key : KeyType -> string.

Lemma find_if_le {A} (pred : A -> bool) l : (find_if pred l <= length l)%nat.
Proof. induction l as [|x l IH]; simpl; [lia|]. destruct (pred x); lia. Qed.

Lemma find_if_app_hit {A} (pred : A -> bool) pre x post :
  Forall (fun y => pred y = false) pre -> pred x = true ->
  find_if pred (pre ++ x :: post) = length pre.
Proof.
  induction 1 as [|y pre Hy _ IH]; intros Hx; simpl.
  - by rewrite Hx.
  - rewrite Hy. f_equal. by apply IH.
Qed.

Lemma find_if_miss {A} (pred : A -> bool) l :
  Forall (fun y => pred y = false) l -> find_if pred l = length l.
Proof.
  induction 1 as [|y l Hy _ IH]; simpl; [done|]. rewrite Hy. by f_equal.
Qed.

Lemma at_first_match (m : Map KeyType ValueType) key pre v post :
  data_ m = pre ++ (key, v) :: post ->
  Forall (fun kv => kv.1 <> key) pre ->
  at_ format_key m key = Ok v.
Proof.
  intros Hd Hpre. unfold at_. rewrite Hd.
  rewrite find_if_app_hit.
  - rewrite length_app. simpl. case_decide; [lia|].
    by rewrite list_lookup_middle.
  - eapply Forall_impl; [exact Hpre|]. intros kv Hkv. simpl.
    by apply bool_decide_eq_false.
  - simpl. by apply bool_decide_eq_true.
Qed.

Lemma at_no_match (m : Map KeyType ValueType) key :
  Forall (fun kv => kv.1 <> key) (data_ m) ->
  at_ format_key m key = Throw (not_found format_key key).
Proof.
  intros Hall. unfold at_. rewrite find_if_miss.
  - by case_decide.
  - eapply Forall_impl; [exact Hall|]. intros kv Hkv. simpl.
    by apply bool_decide_eq_false.
Qed.

End MapProperties.

(** C1. [Map::at] scans the entries in insertion order and returns the value
    of the first entry whose key equals the given key; when no entry
    matches it raises the range error whose message carries the key, and
    never a default value.  On the table red:1, blue:2, green:3 it returns 1
    for red, 2 for blue and raises for purple. *)
Theorem at_first_match_or_not_found :
  (forall (KeyType ValueType : Type) (Heq : EqDecision KeyType)
          (format_key : KeyType -> string)
          (m : ConstexprMap.Map KeyType ValueType) (key : KeyType),
      (forall pre v post,
          ConstexprMap.data_ m = pre ++ (key, v) :: post ->
          Forall (fun kv => kv.1 <> key) pre ->
          ConstexprMap.at_ format_key m key = Cxx.Ok v)
      /\ (Forall (fun kv => kv.1 <> key) (ConstexprMap.data_ m) ->
          ConstexprMap.at_ format_key m key
          = Cxx.Throw (Cxx.range_error (format_key key ++ " not found in map." ++ Cxx.nl))))
  /\ ConstexprMap.at_ ConstexprMap.format_string ConstexprMap.map "red" = Cxx.Ok 1
  /\ ConstexprMap.at_ ConstexprMap.format_string ConstexprMap.map "blue" = Cxx.Ok 2
  /\ ConstexprMap.at_ ConstexprMap.format_string ConstexprMap.map "purple"
     = Cxx.Throw (Cxx.range_error ("purple not found in map." ++ Cxx.nl)).
Proof.
  split; [|repeat split; vm_compute; reflexivity].
  intros KeyType ValueType Heq format_key m key. split.
  - intros pre v post Hd Hpre. by eapply at_first_match.
  - intros Hall. by apply at_no_match.
Qed.

(** The first of two entries with the same key wins; a key absent from the
    table raises. *)
Lemma at_first_match_or_not_found_witness :
  ConstexprMap.at_ ConstexprMap.format_string
    {| ConstexprMap.data_ := [("a"%string, 1); ("b"%string, 2); ("b"%string, 3)] |} "b"
  = Cxx.Ok 2
  /\ ConstexprMap.at_ ConstexprMap.format_string
       {| ConstexprMap.data_ := [("a"%string, 1)] |} "z"
     = Cxx.Throw (Cxx.range_error ("z not found in map." ++ Cxx.nl)).
Proof.
  destruct at_first_match_or_not_found as [Hgen _]. split.
  - apply (proj1 (Hgen string Z _ ConstexprMap.format_string
                    {| ConstexprMap.data_ := [("a"%string, 1); ("b"%string, 2); ("b"%string, 3)] |}
                    "b"%string) [("a"%string, 1)] 2 [("b"%string, 3)]).
    + reflexivity.
    + repeat constructor. simpl. discriminate.
  - apply (proj2 (Hgen string Z _ ConstexprMap.format_string
                    {| ConstexprMap.data_ := [("a"%string, 1)] |} "z"%string)).
    repeat constructor. simpl. discriminate.
Defined.

(** ** Reductions and prefix sums *)
Section NumericProperties.
Import Cxx Numeric.
Context {T : Type}.
Variable op : T -> T -> T.

Lemma accumulate_app (l1 l2 : list T) init :
  accumulate op (l1 ++ l2) init = accumulate op l2 (accumulate op l1 init).
Proof. revert init. induction l1 as [|x l1 IH]; intros init; simpl; [done|]. apply IH. Qed.

Lemma inclusive_scan_init_length (l : list T) init :
  length (inclusive_scan_init op l init) = length l.
Proof. revert init. induction l as [|x l IH]; intros init; simpl; [done|]. by rewrite IH. Qed.

Lemma inclusive_scan_init_lookup (l : list T) init (i : nat) :
  (i < length l)%nat ->
  inclusive_scan_init op l init !! i = Some (accumulate op (take (S i) l) init).
Proof.
  revert init i. induction l as [|x l IH]; intros init i Hi; simpl in *; [lia|].
  destruct i as [|i]; simpl.
  - reflexivity.
  - rewrite IH by lia. reflexivity.
Qed.

Lemma inclusive_scan_init_last (l : list T) init :
  last (init :: inclusive_scan_init op l init) = Some (accumulate op l init).
Proof.
  revert init. induction l as [|x l IH]; intros init; [done|].
  simpl inclusive_scan_init. rewrite last_cons_cons. apply IH.
Qed.

Hypothesis op_assoc : forall a b c, op a (op b c) = op (op a b) c.

Lemma accumulate_shift (l : list T) a b :
  op a (accumulate op l b) = accumulate op l (op a b).
Proof.
  revert b. induction l as [|x l IH]; intros b; simpl; [done|].
  by rewrite IH, op_assoc.
Qed.

Lemma reduce_accumulate_bounded (n : nat) :
  forall (l : list T) init, (length l <= n)%nat -> reduce op l init = accumulate op l init.
Proof.
  induction n as [|n IH]; intros l init Hn.
  - destruct l; [done|simpl in Hn; lia].
  - destruct l as [|x0 [|x1 [|x2 [|x3 rest]]]]; try reflexivity.
    simpl in Hn. simpl. rewrite IH by lia.
    f_equal. by rewrite !op_assoc.
Qed.

Lemma reduce_accumulate (l : list T) init : reduce op l init = accumulate op l init.
Proof. by apply (reduce_accumulate_bounded (length l)). Qed.

Lemma elements_of_nonempty (g : grouping T) : elements_of g <> [].
Proof.
  induction g as [x|g1 IH1 g2 IH2]; simpl; [done|].
  intros [H1 _]%app_eq_nil. by apply IH1.
Qed.

Lemma combine_accumulate (g : grouping T) :
  forall x l, elements_of g = x :: l -> combine op g = accumulate op l x.
Proof.
  induction g as [y|g1 IH1 g2 IH2]; intros x l He; simpl in *.
  - by inversion He.
  - destruct (elements_of g1) as [|x1 l1] eqn:E1; [by destruct (elements_of_nonempty g1)|].
    destruct (elements_of g2) as [|x2 l2] eqn:E2; [by destruct (elements_of_nonempty g2)|].
    simpl in He. inversion He; subst.
    rewrite (IH1 x l1 eq_refl), (IH2 x2 l2 eq_refl).
    rewrite accumulate_app. simpl. apply accumulate_shift.
Qed.

End NumericProperties.

(** C7. For an associative combining operation, [reduce] returns what the
    manual sequential left fold ([accumulate]) returns, on every sequence and
    from every initial value, in the order of combination of the sequential
    overload and in any other parenthesisation of the sequence; on
    [1,2,3,4,5] with addition from 0 both are 15, the value of the
    closed form [(last - first + 1) * (last + first) / 2] that [sum_gauss]
    computes. *)
Theorem reduce_equals_left_fold :
  (forall (T : Type) (op : T -> T -> T),
      (forall a b c, op a (op b c) = op (op a b) c) ->
      forall (l : list T) (init : T),
        Numeric.reduce op l init = Numeric.accumulate op l init
        /\ (forall g : Numeric.grouping T,
               Numeric.elements_of g = init :: l ->
               Numeric.combine op g = Numeric.accumulate op l init))
  /\ Numeric.v1 = [1; 2; 3; 4; 5]
  /\ Numeric.sum2 = 15
  /\ Numeric.sum1 = Numeric.sum2
  /\ Numeric.sum_gauss 1 5 1 = 15
  /\ (5 - 1 + 1) * (5 + 1) `div` 2 = 15.
Proof.
  split; [|repeat split; vm_compute; reflexivity].
  intros T op Hassoc l init. split.
  - by apply reduce_accumulate.
  - intros g Hg. by apply combine_accumulate.
Qed.

(** Addition of integers on a sequence of six elements, one chunk of four
    and two single steps. *)
Lemma reduce_equals_left_fold_witness :
  Numeric.reduce Z.add [1; 2; 3; 4; 5; 6] 0 = Numeric.accumulate Z.add [1; 2; 3; 4; 5; 6] 0
  /\ (forall g : Numeric.grouping Z,
         Numeric.elements_of g = 0 :: [1; 2; 3; 4; 5; 6] ->
         Numeric.combine Z.add g = Numeric.accumulate Z.add [1; 2; 3; 4; 5; 6] 0).
Proof.
  apply (proj1 reduce_equals_left_fold Z Z.add).
  intros a b c. lia.
Defined.

(** C8. [inclusive_scan] produces as many elements as it is given, the
    element at position [i] being the combination of the input elements 0 to
    [i] in order; for an associative operation with a left identity the last
    element is [reduce] over the whole sequence from that identity; on
    [1,2,3,4,5] with addition the result is [1,3,6,10,15], whose last element
    is the sum computed by [reduce]. *)
Theorem inclusive_scan_cumulative :
  (forall (T : Type) (op : T -> T -> T) (l : list T),
      length (Numeric.inclusive_scan op l) = length l
      /\ (forall (i : nat) (x : T) (rest : list T),
             (i < length l)%nat ->
             take (S i) l = x :: rest ->
             Numeric.inclusive_scan op l !! i = Some (Numeric.accumulate op rest x)))
  /\ (forall (T : Type) (op : T -> T -> T) (e : T),
         (forall a b c, op a (op b c) = op (op a b) c) ->
         (forall a, op e a = a) ->
         forall l : list T, l <> [] ->
           last (Numeric.inclusive_scan op l) = Some (Numeric.reduce op l e))
  /\ Numeric.psum2 = [1; 3; 6; 10; 15]
  /\ last Numeric.psum2 = Some Numeric.sum2.
Proof.
  split; [|split; [|split; vm_compute; reflexivity]].
  - intros T op l. destruct l as [|x0 l]; simpl.
    + split; [done|]. intros i x rest Hi. simpl in Hi. lia.
    + split; [by rewrite inclusive_scan_init_length|].
      intros i x rest Hi Htake. simpl in Htake. inversion Htake; subst.
      destruct i as [|i]; simpl.
      * reflexivity.
      * simpl in Hi. rewrite inclusive_scan_init_lookup by lia. reflexivity.
  - intros T op e Hassoc Hid l Hne. destruct l as [|x0 l]; [done|].
    unfold Numeric.inclusive_scan. rewrite inclusive_scan_init_last.
    rewrite reduce_accumulate by done. simpl. by rewrite Hid.
Qed.

(** Maximum with its identity on the naturals, and a position inside the
    sequence. *)
Lemma inclusive_scan_cumulative_witness :
  Numeric.inclusive_scan Nat.max [3; 1; 4; 1; 5]%nat !! 2%nat
  = Some (Numeric.accumulate Nat.max [1; 4]%nat 3%nat)
  /\ last (Numeric.inclusive_scan Nat.max [3; 1; 4; 1; 5]%nat)
     = Some (Numeric.reduce Nat.max [3; 1; 4; 1; 5]%nat 0%nat).
Proof.
  destruct inclusive_scan_cumulative as (Hpos & Hlast & _). split.
  - apply (proj2 (Hpos nat Nat.max [3; 1; 4; 1; 5]%nat) 2%nat 3%nat [1; 4]%nat).
    + simpl. lia.
    + reflexivity.
  - apply (Hlast nat Nat.max 0%nat).
    + intros a b c. lia.
    + intros a. lia.
    + discriminate.
Defined.

(** ** Removal of consecutive duplicates *)
Section UniqueProperties.
Import Cxx Algorithm.
Context {T : Type} `{EqDecision T}.

Lemma unique_from_length (dest : T) rest :
  (length (unique_from dest rest) <= length rest)%nat.
Proof.
  revert dest. induction rest as [|x rest IH]; intros dest; simpl; [lia|].
  case_decide; simpl.
  - specialize (IH dest). lia.
  - specialize (IH x). lia.
Qed.

Lemma kept_length (v : list T) : (length (kept v) <= length v)%nat.
Proof. destruct v as [|x rest]; simpl; [lia|]. pose proof (unique_from_length x rest). lia. Qed.

Lemma unique_from_distinct (dest : T) rest :
  adjacent_distinct (dest :: unique_from dest rest).
Proof.
  revert dest. induction rest as [|x rest IH]; intros dest; [done|].
  simpl unique_from. case_decide as Hd.
  - apply IH.
  - specialize (IH x). simpl. simpl in IH. split; [exact Hd|exact IH].
Qed.

Lemma kept_distinct (v : list T) : adjacent_distinct (kept v).
Proof. destruct v as [|x rest]; [done|]. apply unique_from_distinct. Qed.

Lemma unique_from_runs (dest : T) rest :
  exists (c : nat) (counts : list nat),
    length counts = length (unique_from dest rest)
    /\ Forall (fun n => (0 < n)%nat) counts
    /\ dest :: rest = replicate (S c) dest ++ expand counts (unique_from dest rest).
Proof.
  revert dest. induction rest as [|x rest IH]; intros dest.
  - exists O, []. repeat split; constructor.
  - simpl unique_from. case_decide as Hd.
    + subst x. destruct (IH dest) as (c & counts & Hlen & Hpos & Heq).
      exists (S c), counts. repeat split; [done..|].
      change (replicate (S (S c)) dest) with (dest :: replicate (S c) dest).
      simpl. f_equal. exact Heq.
    + destruct (IH x) as (c & counts & Hlen & Hpos & Heq).
      exists O, (S c :: counts). repeat split.
      * simpl. by rewrite Hlen.
      * constructor; [lia|done].
      * simpl. f_equal. unfold expand in *. simpl. simpl in Heq. exact Heq.
Qed.

Lemma kept_runs (v : list T) :
  exists counts : list nat,
    length counts = length (kept v)
    /\ Forall (fun n => (0 < n)%nat) counts
    /\ v = expand counts (kept v).
Proof.
  destruct v as [|x rest].
  - exists []. repeat split; constructor.
  - destruct (unique_from_runs x rest) as (c & counts & Hlen & Hpos & Heq).
    exists (S c :: counts). repeat split.
    + simpl. by rewrite Hlen.
    + constructor; [lia|done].
    + exact Heq.
Qed.

Lemma erase_std_unique (v : list T) :
  erase_to_end (std_unique v).1 (std_unique v).2 = kept v.
Proof. unfold erase_to_end, std_unique. simpl. apply take_app_length. Qed.

End UniqueProperties.

Section DoubledSequence.
Import Cxx Algorithm.

Lemma to_int_small (z : Z) : 0 <= z < 2 ^ 31 -> to_int z = z.
Proof.
  intros Hz. unfold to_int. rewrite Z.mod_small; lia.
Qed.

Lemma to_size_t_small (z : Z) : 0 <= z < 2 ^ 64 -> to_size_t z = z.
Proof. intros Hz. unfold to_size_t. by rewrite Z.mod_small. Qed.

Lemma push_twice_doubled (count i : nat) (v : list Z) :
  Z.of_nat (i + count) <= 2 ^ 31 ->
  push_twice count (Z.of_nat i) v
  = v ++ flat_map (fun k => [Z.of_nat k; Z.of_nat k]) (seq i count).
Proof.
  revert i v. induction count as [|count IH]; intros i v Hb; simpl.
  - by rewrite app_nil_r.
  - rewrite to_int_small by lia. rewrite to_size_t_small by lia.
    replace (Z.of_nat i + 1) with (Z.of_nat (S i)) by lia.
    rewrite IH by lia. by rewrite <- !app_assoc.
Qed.

Lemma unique_from_doubled (count i : nat) (d : Z) :
  d < Z.of_nat i ->
  unique_from d (flat_map (fun k => [Z.of_nat k; Z.of_nat k]) (seq i count))
  = Z.of_nat <$> seq i count.
Proof.
  revert i d. induction count as [|count IH]; intros i d Hd; simpl; [done|].
  case_decide; [lia|]. case_decide; [|done].
  f_equal. apply IH. lia.
Qed.

Lemma kept_doubled (n : nat) : kept (doubled n) = increasing n.
Proof.
  unfold doubled, increasing. destruct n as [|n]; [done|].
  cbn [seq flat_map fmap list_fmap app kept unique_from].
  rewrite decide_True by done. f_equal. apply unique_from_doubled. lia.
Qed.

Lemma count_if_doubled (pred : Z -> Z) (l : list nat) :
  count_if pred (flat_map (fun k => [Z.of_nat k; Z.of_nat k]) l)
  = 2 * count_if pred (Z.of_nat <$> l).
Proof.
  induction l as [|k l IH]; [done|].
  cbn [flat_map app fmap list_fmap count_if]. fold (Z.of_nat <$> l).
  rewrite IH. destruct (bool_decide (pred (Z.of_nat k) = 0)); lia.
Qed.

Lemma doubled_length (n : nat) : length (doubled n) = (2 * n)%nat.
Proof.
  unfold doubled.
  assert (forall i, length (flat_map (fun k => [Z.of_nat k; Z.of_nat k]) (seq i n))
                    = (n + n)%nat) as Hgen.
  { induction n as [|n IH]; intros i; simpl; [done|]. rewrite IH. lia. }
  rewrite Hgen. lia.
Qed.

Lemma increasing_length (n : nat) : length (increasing n) = n.
Proof. unfold increasing. by rewrite length_fmap, length_seq. Qed.

End DoubledSequence.

(** C9. [std::unique] removes consecutive duplicates only and returns the
    boundary for truncation: the vector keeps its length, the part before
    the boundary has no two equal neighbours and the input is that part with
    every element repeated one or more times in place, so [1,2,1] is left as
    it is.  On the sequence that [unique()] builds, [0,0,1,1,...] with each
    value of [0 .. n-1] twice, truncation at the boundary leaves
    [0,1,...,n-1], and the number of elements counted by [is_even], as the
    number of the others, is half of what it was before. *)
Theorem unique_removes_consecutive_duplicates :
  (forall (T : Type) (Heq : EqDecision T) (v : list T),
      length (Algorithm.std_unique v).1 = length v
      /\ ((Algorithm.std_unique v).2 <= length v)%nat
      /\ Algorithm.adjacent_distinct
           (Algorithm.erase_to_end (Algorithm.std_unique v).1 (Algorithm.std_unique v).2)
      /\ exists counts : list nat,
           length counts = (Algorithm.std_unique v).2
           /\ Forall (fun n => (0 < n)%nat) counts
           /\ v = Algorithm.expand counts
                    (Algorithm.erase_to_end (Algorithm.std_unique v).1 (Algorithm.std_unique v).2))
  /\ Algorithm.erase_to_end (Algorithm.std_unique [1; 2; 1]).1 (Algorithm.std_unique [1; 2; 1]).2
     = [1; 2; 1]
  /\ (forall n : nat,
         Z.of_nat n <= 2 ^ 31 ->
         Algorithm.v1_initial n = Algorithm.doubled n
         /\ Algorithm.v1_final n = Algorithm.increasing n
         /\ Cxx.count_if Algorithm.is_even (Algorithm.v1_initial n)
            = 2 * Cxx.count_if Algorithm.is_even (Algorithm.v1_final n)
         /\ Z.of_nat (length (Algorithm.v1_initial n))
            - Cxx.count_if Algorithm.is_even (Algorithm.v1_initial n)
            = 2 * (Z.of_nat (length (Algorithm.v1_final n))
                   - Cxx.count_if Algorithm.is_even (Algorithm.v1_final n))).
Proof.
  split; [|split; [vm_compute; reflexivity|]].
  - intros T Heq v. rewrite erase_std_unique.
    pose proof (kept_length v) as Hlen.
    unfold Algorithm.std_unique. simpl. repeat split.
    + rewrite length_app, length_drop. lia.
    + exact Hlen.
    + apply kept_distinct.
    + apply kept_runs.
  - intros n Hn.
    assert (Algorithm.v1_initial n = Algorithm.doubled n) as Hinit.
    { unfold Algorithm.v1_initial, Algorithm.doubled.
      change 0 with (Z.of_nat 0). rewrite push_twice_doubled by (simpl; lia). done. }
    assert (Algorithm.v1_final n = Algorithm.increasing n) as Hfinal.
    { unfold Algorithm.v1_final.
      pose proof (erase_std_unique (Algorithm.v1_initial n)) as He.
      destruct (Algorithm.std_unique (Algorithm.v1_initial n)) as [v b]. simpl in He.
      rewrite He, Hinit. apply kept_doubled. }
    rewrite Hfinal, Hinit. repeat split.
    + unfold Algorithm.doubled, Algorithm.increasing. apply count_if_doubled.
    + rewrite doubled_length, increasing_length.
      unfold Algorithm.doubled, Algorithm.increasing. rewrite count_if_doubled. lia.
Qed.

(** The run of [unique()] itself, with [n = 20]. *)
Lemma unique_removes_consecutive_duplicates_witness :
  Algorithm.v1_initial 20 = Algorithm.doubled 20
  /\ Algorithm.v1_final 20 = Algorithm.increasing 20
  /\ Cxx.count_if Algorithm.is_even (Algorithm.v1_initial 20)
     = 2 * Cxx.count_if Algorithm.is_even (Algorithm.v1_final 20)
  /\ Z.of_nat (length (Algorithm.v1_initial 20))
     - Cxx.count_if Algorithm.is_even (Algorithm.v1_initial 20)
     = 2 * (Z.of_nat (length (Algorithm.v1_final 20))
            - Cxx.count_if Algorithm.is_even (Algorithm.v1_final 20)).
Proof.
  apply (proj2 (proj2 unique_removes_consecutive_duplicates) 20%nat).
  vm_compute. discriminate.
Defined.

(** ** The owning container *)
Section HeapLemmas.
Import Cxx Iterators.
Context {T : Type}.
Variable value_init : T.

Implicit Types (s : state T) (h : heap T) (cs vs : list (cell T)) (p : pointer).

Lemma with_blocks_id s : with_blocks s (blocks (mem s)) = s.
Proof. by destruct s as [o [b n r]]. Qed.

Lemma allocate_ok (n : Z) (c : cell T) s :
  n <= PTRDIFF_MAX ->
  allocate n c s
  = Ok ({| blk := Some (next_block (mem s)); off := 0 |},
        {| objs := objs s;
           mem := {| blocks := <[next_block (mem s) := replicate (Z.to_nat n) c]> (blocks (mem s));
                     next_block := S (next_block (mem s));
                     released := released (mem s) |} |}).
Proof.
  intros Hn. unfold allocate. rewrite bool_decide_eq_false_2 by lia. reflexivity.
Qed.

Lemma read_range_whole (l : nat) cs s :
  blocks (mem s) !! l = Some cs ->
  read_range {| blk := Some l; off := 0 |} (length cs) s = Ok (cs, s).
Proof.
  intros Hl. unfold read_range. case_decide as Hn.
  - destruct cs; [done|discriminate].
  - unfold bind, get_mem. simpl. rewrite Hl.
    rewrite bool_decide_eq_true_2 by lia. unfold ret. simpl.
    by rewrite firstn_all.
Qed.

Lemma write_range_whole (l : nat) cs vs s :
  blocks (mem s) !! l = Some cs -> length vs = length cs ->
  write_range {| blk := Some l; off := 0 |} vs s
  = Ok (tt, with_blocks s (<[l := vs]> (blocks (mem s)))).
Proof.
  intros Hl Hlen. unfold write_range. case_decide as Hn.
  - subst vs. destruct cs; [|discriminate].
    unfold ret. rewrite insert_id by done. by rewrite with_blocks_id.
  - unfold bind, get_mem. simpl. rewrite Hl.
    rewrite bool_decide_eq_true_2 by lia. unfold set_mem, with_blocks. simpl.
    rewrite Hlen, drop_all, app_nil_r. reflexivity.
Qed.

Lemma copy_nothing (first dest : pointer) s :
  copy first (ptr_add first 0) dest s = Ok (tt, s).
Proof.
  unfold copy, ptr_diff, ptr_add. simpl. rewrite decide_True by done.
  replace (off first + 0 - off first) with 0 by lia. reflexivity.
Qed.

Lemma copy_whole (src dst : nat) cs ds s :
  blocks (mem s) !! src = Some cs -> blocks (mem s) !! dst = Some ds ->
  length cs = length ds ->
  copy {| blk := Some src; off := 0 |}
       (ptr_add {| blk := Some src; off := 0 |} (Z.of_nat (length cs)))
       {| blk := Some dst; off := 0 |} s
  = Ok (tt, with_blocks s (<[dst := cs]> (blocks (mem s)))).
Proof.
  intros Hsrc Hdst Hlen. unfold copy, ptr_diff, ptr_add. simpl.
  rewrite decide_True by done.
  replace (0 + Z.of_nat (length cs) - 0) with (Z.of_nat (length cs)) by lia.
  rewrite Nat2Z.id. unfold bind. rewrite (read_range_whole src cs s Hsrc).
  by apply write_range_whole with ds.
Qed.

Lemma load_owned (l : nat) cs (i : nat) (c : cell T) s :
  blocks (mem s) !! l = Some cs -> cs !! i = Some c ->
  load {| blk := Some l; off := Z.of_nat i |} s = Ok (c, s).
Proof.
  intros Hl Hi. pose proof (lookup_lt_Some _ _ _ Hi) as Hlt.
  unfold load, bind, read_range. rewrite decide_False by done.
  unfold bind, get_mem. simpl. rewrite Hl.
  rewrite bool_decide_eq_true_2 by lia. unfold ret. simpl.
  rewrite Nat2Z.id.
  destruct (drop i cs) as [|c' rest] eqn:Hd.
  - apply (f_equal length) in Hd. rewrite length_drop in Hd. simpl in Hd. lia.
  - assert (drop i cs !! O = Some c) as H0 by (rewrite lookup_drop; by rewrite Nat.add_0_r).
    rewrite Hd in H0. simpl in H0. inversion H0; subst. reflexivity.
Qed.

Lemma store_owned (l : nat) cs (i : nat) (v : T) s :
  blocks (mem s) !! l = Some cs -> (i < length cs)%nat ->
  store {| blk := Some l; off := Z.of_nat i |} v s
  = Ok (tt, with_blocks s (<[l := <[i := Some v]> cs]> (blocks (mem s)))).
Proof.
  intros Hl Hi. unfold store, write_range. rewrite decide_False by done.
  unfold bind, get_mem. simpl. rewrite Hl.
  rewrite bool_decide_eq_true_2 by (simpl; lia).
  unfold set_mem, with_blocks. simpl. rewrite Nat2Z.id.
  do 4 f_equal.
  rewrite insert_take_drop by done. simpl. by rewrite Nat.add_1_r.
Qed.

End HeapLemmas.

Section SubscriptProperties.
Import Cxx Iterators.

Lemma to_size_t_nonneg (idx : Z) : 0 <= idx <= INT_MAX -> to_size_t idx = idx.
Proof. unfold to_size_t, INT_MAX. intros Hi. rewrite Z.mod_small; lia. Qed.

Lemma to_size_t_negative (idx : Z) : INT_MIN <= idx < 0 -> to_size_t idx = idx + 2 ^ 64.
Proof.
  unfold to_size_t, INT_MIN. intros Hi.
  rewrite <- (Z_mod_plus_full idx 1 (2 ^ 64)). rewrite Z.mod_small; lia.
Qed.

Lemma subscript_in_range (a : DynamicArray) (idx : Z) :
  idx <= INT_MAX -> 0 <= idx < size_ a ->
  subscript a idx = Ok (ptr_add (values_ a) idx).
Proof.
  intros Hint Hidx. unfold subscript.
  rewrite to_size_t_nonneg by lia. by rewrite bool_decide_eq_false_2 by lia.
Qed.

Lemma subscript_out_of_range (a : DynamicArray) (idx : Z) :
  size_ a <= PTRDIFF_MAX -> INT_MIN <= idx <= INT_MAX -> ~ (0 <= idx < size_ a) ->
  subscript a idx = Throw (invalid_index idx (size_ a)).
Proof.
  intros Hsize Hint Hidx. unfold subscript.
  destruct (decide (0 <= idx)) as [Hpos|Hneg].
  - rewrite to_size_t_nonneg by lia. by rewrite bool_decide_eq_true_2 by lia.
  - rewrite to_size_t_negative by lia.
    unfold PTRDIFF_MAX, INT_MIN in *. by rewrite bool_decide_eq_true_2 by lia.
Qed.

End SubscriptProperties.

(** C2. For a container of size [n] and an index [i] of type [int],
    [operator[]] returns the reference to element [i], through which that
    element is read, when [i] is in [[0, n)]; for every other [i], the
    negative ones included, it raises the range error whose message names
    the index and the size.  No index is clamped or wrapped.  On a container
    of size 5, index 4 gives the last element and indices 5 and -1 raise. *)
Theorem subscript_checks_bounds :
  (forall (a : Iterators.DynamicArray) (idx : Z),
      0 <= Iterators.size_ a <= Cxx.PTRDIFF_MAX ->
      Cxx.INT_MIN <= idx <= Cxx.INT_MAX ->
      (0 <= idx < Iterators.size_ a ->
       Iterators.subscript a idx = Cxx.Ok (Iterators.ptr_add (Iterators.values_ a) idx))
      /\ (~ (0 <= idx < Iterators.size_ a) ->
          Iterators.subscript a idx
          = Cxx.Throw (Cxx.range_error
                         ("Invalid index " ++ pretty idx ++ " for DynamicArray of size "
                          ++ pretty (Iterators.size_ a) ++ Cxx.nl))))
  /\ (forall (T : Type) (s : Iterators.state T) (a : Iterators.DynamicArray)
             (cs : list (Iterators.cell T)) (idx : Z) (c : Iterators.cell T),
         Iterators.owns (Iterators.mem s) a cs ->
         idx <= Cxx.INT_MAX ->
         0 <= idx < Iterators.size_ a ->
         cs !! Z.to_nat idx = Some c ->
         exists p : Iterators.pointer,
           Iterators.subscript a idx = Cxx.Ok p /\ Iterators.load p s = Cxx.Ok (c, s))
  /\ (exists (s : Iterators.state Z) (a : Iterators.DynamicArray),
         Iterators.ctor_list 0 O [10; 20; 30; 40; 50] Iterators.initial = Cxx.Ok (tt, s)
         /\ Iterators.objs s !! O = Some a
         /\ Iterators.size_ a = 5
         /\ (exists p : Iterators.pointer,
                Iterators.subscript a 4 = Cxx.Ok p
                /\ Iterators.load p s = Cxx.Ok (Some 50, s))
         /\ Iterators.subscript a 5
            = Cxx.Throw (Cxx.range_error
                           ("Invalid index 5 for DynamicArray of size 5" ++ Cxx.nl))
         /\ Iterators.subscript a (-1)
            = Cxx.Throw (Cxx.range_error
                           ("Invalid index -1 for DynamicArray of size 5" ++ Cxx.nl))).
Proof.
  split; [|split].
  - intros a idx Hsize Hint. split.
    + intros Hidx. apply subscript_in_range; lia.
    + intros Hidx. apply subscript_out_of_range; [lia|done..].
  - intros T s a cs idx c (Hlen & Hmax & Hown) Hint Hidx Hc.
    exists (Iterators.ptr_add (Iterators.values_ a) idx). split.
    + by apply subscript_in_range.
    + destruct Hown as [[_ ->]|(l & Hp & Hl)]; [done|].
      rewrite Hp. unfold Iterators.ptr_add. simpl.
      replace idx with (Z.of_nat (Z.to_nat idx)) at 1 by lia.
      by eapply load_owned.
  - eexists. eexists. split; [vm_compute; reflexivity|].
    split; [vm_compute; reflexivity|].
    split; [reflexivity|].
    split; [eexists; split; vm_compute; reflexivity|].
    split; vm_compute; reflexivity.
Qed.

(** A container of three elements in a heap of its own: the middle element
    is reached, the index one past the end and a negative index raise. *)
Lemma subscript_checks_bounds_witness :
  Iterators.subscript
    {| Iterators.size_ := 3; Iterators.values_ := {| Iterators.blk := Some O; Iterators.off := 0 |} |} 1
  = Cxx.Ok {| Iterators.blk := Some O; Iterators.off := 1 |}
  /\ Iterators.subscript
       {| Iterators.size_ := 3; Iterators.values_ := {| Iterators.blk := Some O; Iterators.off := 0 |} |} 3
     = Cxx.Throw (Cxx.range_error ("Invalid index 3 for DynamicArray of size 3" ++ Cxx.nl))
  /\ Iterators.subscript
       {| Iterators.size_ := 3; Iterators.values_ := {| Iterators.blk := Some O; Iterators.off := 0 |} |} (-7)
     = Cxx.Throw (Cxx.range_error ("Invalid index -7 for DynamicArray of size 3" ++ Cxx.nl)).
Proof.
  destruct subscript_checks_bounds as (Hgen & _ & _).
  set (a := {| Iterators.size_ := 3;
               Iterators.values_ := {| Iterators.blk := Some O; Iterators.off := 0 |} |}).
  split; [|split].
  - apply (proj1 (Hgen a 1 ltac:(vm_compute; split; discriminate)
                        ltac:(vm_compute; split; discriminate))).
    simpl. lia.
  - apply (proj2 (Hgen a 3 ltac:(vm_compute; split; discriminate)
                        ltac:(vm_compute; split; discriminate))).
    simpl. lia.
  - apply (proj2 (Hgen a (-7) ltac:(vm_compute; split; discriminate)
                        ltac:(vm_compute; split; discriminate))).
    simpl. lia.
Defined.

(** ** The random-access cursor *)
Section CursorProperties.
Import Cxx Iterators.

Lemma ptr_add_0 (p : pointer) : ptr_add p 0 = p.
Proof. destruct p as [b o]. unfold ptr_add. simpl. f_equal. lia. Qed.

Lemma ptr_add_add (p : pointer) (i j : Z) : ptr_add (ptr_add p i) j = ptr_add p (i + j).
Proof. unfold ptr_add. simpl. f_equal. lia. Qed.

Lemma iter_pre_dec_repeat (n : nat) (it : iterator) :
  Nat.iter n iter_pre_dec it = iter_minus it (Z.of_nat n).
Proof.
  induction n as [|n IH].
  - simpl. unfold iter_minus. simpl. by rewrite ptr_add_0; destruct it.
  - rewrite Nat.iter_succ, IH. unfold iter_pre_dec, iter_minus. simpl.
    rewrite ptr_add_add. do 2 f_equal. lia.
Qed.

Lemma iter_diff_plus (it : iterator) (i j : Z) :
  iter_diff (iter_plus it i) (iter_plus it j) = Ok (i - j).
Proof.
  unfold iter_diff, iter_plus, ptr_diff. simpl.
  rewrite decide_True by done. f_equal. lia.
Qed.

End CursorProperties.

(** C6. For the cursors of a container of size [N]: [end - begin] is [N];
    for [k] in [[0, N)] the references [(begin + k)[0]] and [*(begin + k)]
    are the same and read element [k]; [N] decrements of [end] give [begin];
    the difference of two cursors into one buffer is the signed distance of
    their positions. *)
Theorem cursor_arithmetic_identities :
  forall a : Iterators.DynamicArray,
    0 <= Iterators.size_ a ->
    Iterators.iter_diff (Iterators.end_ a) (Iterators.begin_ a) = Cxx.Ok (Iterators.size_ a)
    /\ (forall k : Z,
           Iterators.iter_subscript (Iterators.iter_plus (Iterators.begin_ a) k) 0
           = Iterators.iter_deref (Iterators.iter_plus (Iterators.begin_ a) k))
    /\ (forall (T : Type) (s : Iterators.state T) (cs : list (Iterators.cell T))
               (k : Z) (c : Iterators.cell T),
           Iterators.owns (Iterators.mem s) a cs ->
           0 <= k < Iterators.size_ a ->
           cs !! Z.to_nat k = Some c ->
           Iterators.load (Iterators.iter_subscript (Iterators.iter_plus (Iterators.begin_ a) k) 0) s
           = Cxx.Ok (c, s)
           /\ Iterators.load (Iterators.iter_deref (Iterators.iter_plus (Iterators.begin_ a) k)) s
              = Cxx.Ok (c, s))
    /\ Nat.iter (Z.to_nat (Iterators.size_ a)) Iterators.iter_pre_dec (Iterators.end_ a)
       = Iterators.begin_ a
    /\ (forall i j : Z,
           Iterators.iter_diff (Iterators.iter_plus (Iterators.begin_ a) i)
                               (Iterators.iter_plus (Iterators.begin_ a) j)
           = Cxx.Ok (i - j))
    /\ (forall it1 it2 : Iterators.iterator,
           Iterators.blk (Iterators.ptr_ it1) = Iterators.blk (Iterators.ptr_ it2) ->
           Iterators.iter_diff it1 it2
           = Cxx.Ok (Iterators.off (Iterators.ptr_ it1) - Iterators.off (Iterators.ptr_ it2))).
Proof.
  intros a Hsize.
  split; [|split; [|split; [|split; [|split]]]].
  - unfold Iterators.iter_diff, Iterators.end_, Iterators.begin_, Iterators.ptr_diff. simpl.
    rewrite decide_True by done. f_equal. lia.
  - intros k. unfold Iterators.iter_subscript, Iterators.iter_deref. apply ptr_add_0.
  - intros T s cs k c (Hlen & Hmax & Hcase) Hk Hc.
    unfold Iterators.iter_subscript, Iterators.iter_deref. rewrite ptr_add_0.
    assert (Iterators.load (Iterators.ptr_ (Iterators.iter_plus (Iterators.begin_ a) k)) s
            = Cxx.Ok (c, s)) as Hload.
    { destruct Hcase as [[_ ->]|(l & Hp & Hl)]; [done|].
      unfold Iterators.iter_plus, Iterators.begin_, Iterators.ptr_add. simpl. rewrite Hp. simpl.
      replace k with (Z.of_nat (Z.to_nat k)) at 1 by lia.
      by eapply load_owned. }
    by split.
  - rewrite iter_pre_dec_repeat.
    unfold Iterators.iter_minus, Iterators.end_, Iterators.begin_. simpl.
    rewrite ptr_add_add. f_equal.
    replace (Iterators.size_ a + - Z.of_nat (Z.to_nat (Iterators.size_ a))) with 0 by lia.
    apply ptr_add_0.
  - intros i j. apply iter_diff_plus.
  - intros it1 it2 Hblk. unfold Iterators.iter_diff, Iterators.ptr_diff.
    by rewrite decide_True by done.
Qed.

(** The container [dyn_arr_1] of [main], of size 10, as the first allocation. *)
Lemma cursor_arithmetic_identities_witness :
  Iterators.iter_diff
    (Iterators.end_ {| Iterators.size_ := 10;
                       Iterators.values_ := {| Iterators.blk := Some O; Iterators.off := 0 |} |})
    (Iterators.begin_ {| Iterators.size_ := 10;
                         Iterators.values_ := {| Iterators.blk := Some O; Iterators.off := 0 |} |})
  = Cxx.Ok 10
  /\ Nat.iter 10 Iterators.iter_pre_dec
       (Iterators.end_ {| Iterators.size_ := 10;
                          Iterators.values_ := {| Iterators.blk := Some O; Iterators.off := 0 |} |})
     = Iterators.begin_ {| Iterators.size_ := 10;
                           Iterators.values_ := {| Iterators.blk := Some O; Iterators.off := 0 |} |}.
Proof.
  pose proof (cursor_arithmetic_identities
                {| Iterators.size_ := 10;
                   Iterators.values_ := {| Iterators.blk := Some O; Iterators.off := 0 |} |}
                ltac:(simpl; lia)) as (Hdiff & _ & _ & Hdec & _).
  split; [exact Hdiff|exact Hdec].
Defined.

Section CopyProperties.
Import Cxx Iterators.
Context {T : Type}.
Variable value_init : T.

Implicit Types (s : state T) (cs : list (cell T)).

Lemma owns_size_nonneg s a cs : owns (mem s) a cs -> 0 <= size_ a <= PTRDIFF_MAX.
Proof. intros (Hlen & Hmax & _). lia. Qed.

Lemma ctor_size_ok (this : nat) (size : Z) s :
  size <= PTRDIFF_MAX ->
  ctor_size value_init this size s
  = Ok (tt, {| objs := <[this := {| size_ := size;
                                   values_ := {| blk := Some (next_block (mem s)); off := 0 |} |}]>
                         (objs s);
               mem := {| blocks := <[next_block (mem s) := replicate (Z.to_nat size) (Some value_init)]>
                                     (blocks (mem s));
                         next_block := S (next_block (mem s));
                         released := released (mem s) |} |}).
Proof.
  intros Hsize. unfold ctor_size, new_array_value, bind.
  by rewrite allocate_ok by done.
Qed.

(** The state in which the copy constructor leaves a valid source. *)
Lemma copy_ctor_ok (this other : nat) (o : DynamicArray) cs s :
  this <> other -> heap_ok (mem s) -> objs s !! other = Some o -> owns (mem s) o cs ->
  copy_ctor value_init this other s
  = Ok (tt, {| objs := <[this := {| size_ := size_ o;
                                   values_ := {| blk := Some (next_block (mem s)); off := 0 |} |}]>
                         (objs s);
               mem := {| blocks := <[next_block (mem s) := cs]> (blocks (mem s));
                         next_block := S (next_block (mem s));
                         released := released (mem s) |} |}).
Proof.
  intros Hne Hheap Hother (Hlen & Hmax & Hcase).
  unfold copy_ctor. unfold bind at 1. unfold get at 1. rewrite Hother.
  unfold bind at 1. rewrite ctor_size_ok by done.
  unfold bind at 1. unfold get at 1. cbn [objs]. rewrite lookup_insert_ne by done. rewrite Hother.
  unfold bind at 1. unfold get at 1. cbn [objs]. rewrite lookup_insert_eq. cbn [values_ size_].
  destruct Hcase as [[Hnull ->]|(l & Hp & Hl)].
  - simpl in Hlen. rewrite <- Hlen. rewrite copy_nothing. reflexivity.
  - assert (l <> next_block (mem s)) as Hfresh.
    { specialize (Hheap l (mk_is_Some _ _ Hl)). lia. }
    rewrite Hp, <- Hlen.
    erewrite copy_whole.
    + unfold with_blocks. cbn [objs mem blocks next_block released].
      by rewrite insert_insert_eq.
    + cbn [mem blocks]. by rewrite lookup_insert_ne.
    + cbn [mem blocks]. by rewrite lookup_insert_eq.
    + rewrite length_replicate. lia.
Qed.

(** What the sized constructor establishes: a size above the largest array
    makes [new] throw, any other size leaves a valid container of
    value-initialised elements. *)
Lemma ctor_size_owns (this : nat) (size : Z) s :
  0 <= size ->
  (PTRDIFF_MAX < size /\ ctor_size value_init this size s = Throw bad_array_new_length)
  \/ (exists (s' : state T) (a : DynamicArray),
         ctor_size value_init this size s = Ok (tt, s')
         /\ objs s' !! this = Some a
         /\ size_ a = size
         /\ owns (mem s') a (replicate (Z.to_nat size) (Some value_init))).
Proof.
  intros Hsize. destruct (decide (PTRDIFF_MAX < size)) as [Hbig|Hfits].
  - left. split; [done|].
    unfold ctor_size, new_array_value, allocate, bind.
    by rewrite bool_decide_eq_true_2 by done.
  - right. eexists. eexists. split; [apply ctor_size_ok; lia|].
    cbn [objs mem]. split; [by rewrite lookup_insert_eq|]. split; [done|].
    split; [rewrite length_replicate; cbn [size_]; lia|].
    split; [cbn [size_]; lia|].
    right. eexists. split; [done|]. cbn [blocks]. by rewrite lookup_insert_eq.
Qed.

End CopyProperties.

(** C5. Copy construction is a deep copy: the copy has the size and the
    elements of the original in storage of its own, and assigning to an
    element of either one through [operator[]] changes that element and
    leaves every element of the other as it was. *)
Theorem copy_ctor_deep_copy :
  forall (T : Type) (value_init : T) (s : Iterators.state T) (this other : nat)
         (o : Iterators.DynamicArray) (cs : list (Iterators.cell T)),
    this <> other ->
    Iterators.heap_ok (Iterators.mem s) ->
    Iterators.objs s !! other = Some o ->
    Iterators.owns (Iterators.mem s) o cs ->
    exists (s' : Iterators.state T) (c : Iterators.DynamicArray),
      Iterators.copy_ctor value_init this other s = Cxx.Ok (tt, s')
      /\ Iterators.objs s' !! this = Some c
      /\ Iterators.objs s' !! other = Some o
      /\ Iterators.size_ c = Iterators.size_ o
      /\ Iterators.owns (Iterators.mem s') c cs
      /\ Iterators.owns (Iterators.mem s') o cs
      /\ Iterators.blk (Iterators.values_ c) <> Iterators.blk (Iterators.values_ o)
      /\ (forall (i : Z) (v : T),
             0 <= i < Iterators.size_ c -> i <= Cxx.INT_MAX ->
             exists (p : Iterators.pointer) (s'' : Iterators.state T),
               Iterators.subscript c i = Cxx.Ok p
               /\ Iterators.store p v s' = Cxx.Ok (tt, s'')
               /\ Iterators.owns (Iterators.mem s'') c (<[Z.to_nat i := Some v]> cs)
               /\ Iterators.owns (Iterators.mem s'') o cs)
      /\ (forall (i : Z) (v : T),
             0 <= i < Iterators.size_ o -> i <= Cxx.INT_MAX ->
             exists (p : Iterators.pointer) (s'' : Iterators.state T),
               Iterators.subscript o i = Cxx.Ok p
               /\ Iterators.store p v s' = Cxx.Ok (tt, s'')
               /\ Iterators.owns (Iterators.mem s'') o (<[Z.to_nat i := Some v]> cs)
               /\ Iterators.owns (Iterators.mem s'') c cs).
Proof.
  intros T value_init s this other o cs Hne Hheap Hother Hown.
  eexists. eexists. split; [by eapply copy_ctor_ok|].
  destruct Hown as (Hlen & Hmax & Hcase).
  set (n := Iterators.next_block (Iterators.mem s)).
  assert (forall l, Iterators.values_ o = {| Iterators.blk := Some l; Iterators.off := 0 |} ->
                    Iterators.blocks (Iterators.mem s) !! l = Some cs -> l <> n) as Hfresh.
  { intros l _ Hl. specialize (Hheap l (mk_is_Some _ _ Hl)). unfold n. lia. }
  cbn [Iterators.objs Iterators.mem Iterators.blocks].
  split; [by rewrite lookup_insert_eq|].
  split; [by rewrite lookup_insert_ne|].
  split; [done|].
  assert (Iterators.owns
            {| Iterators.blocks := <[n := cs]> (Iterators.blocks (Iterators.mem s));
               Iterators.next_block := S n;
               Iterators.released := Iterators.released (Iterators.mem s) |} o cs) as Hown_o.
  { split; [done|]. split; [done|].
    destruct Hcase as [Hnull|(l & Hp & Hl)]; [by left|right].
    exists l. split; [done|]. cbn [Iterators.blocks]. rewrite lookup_insert_ne; [done|].
    intros <-. by eapply Hfresh. }
  split.
  { split; [done|]. split; [done|]. right. exists n. split; [done|].
    cbn [Iterators.blocks]. by rewrite lookup_insert_eq. }
  split; [exact Hown_o|].
  split.
  { cbn [Iterators.values_ Iterators.blk].
    destruct Hcase as [[-> _]|(l & Hp & Hl)]; [done|].
    rewrite Hp. cbn [Iterators.blk]. intros [= <-]. by eapply Hfresh. }
  split.
  - intros i v Hi Hint. cbn [Iterators.size_] in Hi.
    eexists. eexists. split; [apply subscript_in_range; [done|by cbn [Iterators.size_]]|].
    unfold Iterators.ptr_add. cbn [Iterators.values_ Iterators.blk Iterators.off].
    replace (0 + i) with (Z.of_nat (Z.to_nat i)) by lia.
    split.
    { eapply store_owned; [cbn [Iterators.mem Iterators.blocks]; by rewrite lookup_insert_eq|lia]. }
    unfold Iterators.with_blocks. cbn [Iterators.mem Iterators.blocks Iterators.next_block Iterators.released].
    split.
    + split; [by rewrite length_insert|]. split; [done|]. right. exists n. split; [done|].
      cbn [Iterators.blocks]. by rewrite lookup_insert_eq.
    + split; [done|]. split; [done|].
      destruct Hcase as [Hnull|(l & Hp & Hl)]; [by left|right].
      exists l. split; [done|]. cbn [Iterators.blocks].
      rewrite !lookup_insert_ne; [done|intros <-; by eapply Hfresh..].
  - intros i v Hi Hint.
    destruct Hcase as [[_ ->]|(l & Hp & Hl)]; [simpl in Hlen; lia|].
    assert (l <> n) as Hln by by eapply Hfresh.
    eexists. eexists. split; [by apply subscript_in_range|].
    rewrite Hp. unfold Iterators.ptr_add. cbn [Iterators.blk Iterators.off].
    replace (0 + i) with (Z.of_nat (Z.to_nat i)) by lia.
    split.
    { eapply store_owned; [cbn [Iterators.mem Iterators.blocks]; by rewrite lookup_insert_ne|lia]. }
    unfold Iterators.with_blocks. cbn [Iterators.mem Iterators.blocks Iterators.next_block Iterators.released].
    split.
    + split; [by rewrite length_insert|]. split; [done|]. right. exists l. split; [done|].
      cbn [Iterators.blocks]. by rewrite lookup_insert_eq.
    + split; [done|]. split; [done|]. right. exists n. split; [done|].
      cbn [Iterators.blocks]. rewrite lookup_insert_ne by done. by rewrite lookup_insert_eq.
Qed.

Section AssignProperties.
Import Cxx Iterators.
Context {T : Type}.

Implicit Types (s : state T) (cs : list (cell T)) (p : pointer).

Lemma owns_pointer s a cs :
  owns (mem s) a cs ->
  values_ a = nullptr
  \/ exists l, values_ a = {| blk := Some l; off := 0 |} /\ blocks (mem s) !! l = Some cs.
Proof. intros (_ & _ & [[Hn _]|Hl]); [by left|by right]. Qed.

Lemma delete_array_ok s p cs :
  (p = nullptr \/ exists l, p = {| blk := Some l; off := 0 |} /\ blocks (mem s) !! l = Some cs) ->
  delete_array p s = Ok (tt, after_delete s p).
Proof.
  intros [->|(l & -> & Hl)]; [done|].
  unfold delete_array. rewrite decide_False by done.
  unfold release, bind, get_mem. cbn [blk off]. rewrite Hl. by rewrite bool_decide_eq_true_2 by done.
Qed.

Lemma owns_unique (h : heap T) a cs1 cs2 : owns h a cs1 -> owns h a cs2 -> cs1 = cs2.
Proof.
  intros (_ & _ & [[Hn1 ->]|(l1 & Hp1 & Hl1)]) (_ & _ & [[Hn2 ->]|(l2 & Hp2 & Hl2)]); try done.
  - rewrite Hn1 in Hp2. discriminate.
  - rewrite Hn2 in Hp1. discriminate.
  - rewrite Hp1 in Hp2. inversion Hp2; subst. rewrite Hl1 in Hl2. by inversion Hl2.
Qed.

(** The state in which copy assignment leaves two distinct valid objects
    that do not share storage. *)
Lemma copy_assign_distinct_ok (this other : nat) (a o : DynamicArray) cs_a cs s :
  this <> other -> heap_ok (mem s) ->
  objs s !! this = Some a -> objs s !! other = Some o ->
  owns (mem s) a cs_a -> owns (mem s) o cs ->
  (values_ a = nullptr \/ blk (values_ a) <> blk (values_ o)) ->
  let s1 := after_delete s (values_ a) in
  let n := next_block (mem s) in
  copy_assign this other s
  = Ok (tt, {| objs := <[this := {| size_ := size_ o; values_ := {| blk := Some n; off := 0 |} |}]>
                         (objs s);
               mem := {| blocks := <[n := cs]> (blocks (mem s1));
                         next_block := S n;
                         released := released (mem s1) |} |}).
Proof.
  intros Hne Hheap Hthis Hother Hown_a Hown_o Hsep s1 n.
  pose proof (owns_pointer _ _ _ Hown_a) as Hpa.
  destruct Hown_o as (Hlen & Hmax & Hcase).
  unfold copy_assign. unfold bind at 1. unfold get at 1. rewrite Hother.
  unfold bind at 1. unfold set_size_, bind at 1, get at 1. rewrite Hthis. unfold put.
  unfold bind at 1. unfold get at 1. cbn [objs]. rewrite lookup_insert_eq. cbn [values_].
  unfold bind at 1. erewrite delete_array_ok by exact Hpa.
  assert (forall l, values_ o = {| blk := Some l; off := 0 |} ->
                    blocks (mem s) !! l = Some cs ->
                    l <> n /\ blocks (mem s1) !! l = Some cs) as Hkeep.
  { intros l Hp Hl. split.
    - specialize (Hheap l (mk_is_Some _ _ Hl)). unfold n. lia.
    - unfold s1, after_delete.
      destruct Hpa as [->|(la & Hpa & Hla)]; [done|].
      rewrite Hpa. cbn [blk mem blocks]. rewrite lookup_delete_ne; [done|].
      intros ->. destruct Hsep as [Hn|Hd]; [by rewrite Hpa in Hn|].
      by rewrite Hpa, Hp in Hd. }
  assert (after_delete {| objs := <[this := {| size_ := size_ o; values_ := values_ a |}]> (objs s);
                          mem := mem s |} (values_ a)
          = {| objs := <[this := {| size_ := size_ o; values_ := values_ a |}]> (objs s);
               mem := mem s1 |}) as ->.
  { unfold s1, after_delete. by destruct (blk (values_ a)). }
  assert (next_block (mem s1) = n) as Hnext.
  { unfold s1, after_delete. by destruct (blk (values_ a)). }
  unfold bind at 1. unfold get at 1. cbn [objs]. rewrite lookup_insert_eq. cbn [size_].
  unfold bind at 1. unfold new_array_default. rewrite allocate_ok by done.
  cbn [objs mem]. rewrite Hnext.
  unfold bind at 1. unfold set_values_, bind at 1, get at 1. cbn [objs].
  rewrite lookup_insert_eq. unfold put. cbn [objs mem size_].
  rewrite insert_insert_eq.
  unfold bind at 1. unfold get at 1. cbn [objs]. rewrite lookup_insert_ne by done. rewrite Hother.
  unfold bind at 1. unfold get at 1. cbn [objs]. rewrite lookup_insert_eq. cbn [values_].
  destruct Hcase as [[Hnull ->]|(l & Hp & Hl)].
  - simpl in Hlen. rewrite <- Hlen. rewrite copy_nothing. reflexivity.
  - destruct (Hkeep l Hp Hl) as [Hln Hl1].
    rewrite Hp, <- Hlen.
    erewrite copy_whole.
    + unfold with_blocks. cbn [objs mem blocks next_block released].
      by rewrite insert_insert_eq.
    + cbn [mem blocks]. by rewrite lookup_insert_ne.
    + cbn [mem blocks]. by rewrite lookup_insert_eq.
    + rewrite length_replicate. lia.
Qed.

(** The state in which copy assignment of a valid object to itself leaves it. *)
Lemma copy_assign_self_ok (this : nat) (a : DynamicArray) cs s :
  objs s !! this = Some a -> owns (mem s) a cs ->
  let s1 := after_delete s (values_ a) in
  let n := next_block (mem s) in
  copy_assign this this s
  = Ok (tt, {| objs := <[this := {| size_ := size_ a; values_ := {| blk := Some n; off := 0 |} |}]>
                         (objs s);
               mem := {| blocks := <[n := replicate (length cs) None]> (blocks (mem s1));
                         next_block := S n;
                         released := released (mem s1) |} |}).
Proof.
  intros Hthis Hown s1 n.
  pose proof (owns_pointer _ _ _ Hown) as Hpa.
  destruct Hown as (Hlen & Hmax & Hcase).
  unfold copy_assign. unfold bind at 1. unfold get at 1. rewrite Hthis.
  unfold bind at 1. unfold set_size_, bind at 1, get at 1. rewrite Hthis. unfold put.
  unfold bind at 1. unfold get at 1. cbn [objs]. rewrite lookup_insert_eq. cbn [values_].
  unfold bind at 1. erewrite delete_array_ok by exact Hpa.
  assert (after_delete {| objs := <[this := {| size_ := size_ a; values_ := values_ a |}]> (objs s);
                          mem := mem s |} (values_ a)
          = {| objs := <[this := {| size_ := size_ a; values_ := values_ a |}]> (objs s);
               mem := mem s1 |}) as ->.
  { unfold s1, after_delete. by destruct (blk (values_ a)). }
  assert (next_block (mem s1) = n) as Hnext.
  { unfold s1, after_delete. by destruct (blk (values_ a)). }
  unfold bind at 1. unfold get at 1. cbn [objs]. rewrite lookup_insert_eq. cbn [size_].
  unfold bind at 1. unfold new_array_default. rewrite allocate_ok by done.
  cbn [objs mem]. rewrite Hnext.
  unfold bind at 1. unfold set_values_, bind at 1, get at 1. cbn [objs].
  rewrite lookup_insert_eq. unfold put. cbn [objs mem size_].
  rewrite insert_insert_eq.
  unfold bind at 1. unfold get at 1. cbn [objs]. rewrite lookup_insert_eq.
  unfold bind at 1. unfold get at 1. cbn [objs]. rewrite lookup_insert_eq. cbn [values_ size_].
  rewrite <- Hlen, Nat2Z.id.
  replace (Z.of_nat (length cs))
    with (Z.of_nat (length (replicate (length cs) (@None T)))) at 1
    by by rewrite length_replicate.
  erewrite copy_whole.
  - unfold with_blocks. cbn [objs mem blocks next_block released].
    by rewrite insert_insert_eq.
  - cbn [mem blocks]. by rewrite lookup_insert_eq.
  - cbn [mem blocks]. by rewrite lookup_insert_eq.
  - done.
Qed.

Lemma after_delete_lookup_other s (a o : DynamicArray) cs (l : nat) :
  values_ o = {| blk := Some l; off := 0 |} ->
  blocks (mem s) !! l = Some cs ->
  (values_ a = nullptr \/ blk (values_ a) <> blk (values_ o)) ->
  blocks (mem (after_delete s (values_ a))) !! l = Some cs.
Proof.
  intros Hp Hl Hsep. unfold after_delete.
  destruct (blk (values_ a)) as [la|] eqn:Hb; [|done].
  cbn [mem blocks]. rewrite lookup_delete_ne; [done|].
  intros ->. destruct Hsep as [Hn|Hd].
  - rewrite Hn in Hb. discriminate.
  - by rewrite Hp in Hd.
Qed.

Lemma after_delete_lookup_self s (a : DynamicArray) (l : nat) :
  values_ a = {| blk := Some l; off := 0 |} ->
  blocks (mem (after_delete s (values_ a))) !! l = None.
Proof.
  intros Hp. unfold after_delete. rewrite Hp. cbn [blk mem blocks]. apply lookup_delete_eq.
Qed.

End AssignProperties.

(** C10. Copy assignment between two distinct valid objects that do not
    share storage is a deep copy: the destination takes the size and the
    elements of the source in storage of its own and the source is left as
    it was.  The operator releases the storage of the destination before it
    copies and does not test for self-assignment: in [a = a] the elements
    are copied from the fresh, default-initialised storage, every element
    ends indeterminate, and no element that held a value is preserved. *)
Theorem copy_assign_deep_copy_needs_distinct_objects :
  forall (T : Type) (s : Iterators.state T) (this other : nat)
         (a o : Iterators.DynamicArray) (cs_a cs : list (Iterators.cell T)),
    Iterators.heap_ok (Iterators.mem s) ->
    Iterators.objs s !! this = Some a ->
    Iterators.objs s !! other = Some o ->
    Iterators.owns (Iterators.mem s) a cs_a ->
    Iterators.owns (Iterators.mem s) o cs ->
    (this <> other ->
     (Iterators.values_ a = Iterators.nullptr
      \/ Iterators.blk (Iterators.values_ a) <> Iterators.blk (Iterators.values_ o)) ->
     exists (s' : Iterators.state T) (a' : Iterators.DynamicArray),
       Iterators.copy_assign this other s = Cxx.Ok (tt, s')
       /\ Iterators.objs s' !! this = Some a'
       /\ Iterators.objs s' !! other = Some o
       /\ Iterators.size_ a' = Iterators.size_ o
       /\ Iterators.owns (Iterators.mem s') a' cs
       /\ Iterators.owns (Iterators.mem s') o cs
       /\ Iterators.blk (Iterators.values_ a') <> Iterators.blk (Iterators.values_ o))
    /\ (this = other ->
        exists (s' : Iterators.state T) (a' : Iterators.DynamicArray),
          Iterators.copy_assign this other s = Cxx.Ok (tt, s')
          /\ Iterators.objs s' !! this = Some a'
          /\ Iterators.size_ a' = Iterators.size_ a
          /\ Iterators.owns (Iterators.mem s') a' (replicate (length cs_a) None)
          /\ (forall l : nat,
                 Iterators.values_ a = {| Iterators.blk := Some l; Iterators.off := 0 |} ->
                 Iterators.blocks (Iterators.mem s') !! l = None)
          /\ (forall (i : nat) (v : T),
                 cs_a !! i = Some (Some v) -> ~ Iterators.owns (Iterators.mem s') a' cs_a)).
Proof.
  intros T s this other a o cs_a cs Hheap Hthis Hother Hown_a Hown_o.
  set (n := Iterators.next_block (Iterators.mem s)).
  assert (forall l cs', Iterators.blocks (Iterators.mem s) !! l = Some cs' -> l <> n) as Hfresh.
  { intros l cs' Hl. specialize (Hheap l (mk_is_Some _ _ Hl)). unfold n. lia. }
  split.
  - intros Hne Hsep. eexists. eexists.
    split; [by eapply copy_assign_distinct_ok|].
    cbn [Iterators.objs Iterators.mem Iterators.blocks Iterators.size_ Iterators.values_
         Iterators.blk].
    destruct Hown_o as (Hlen & Hmax & Hcase).
    split; [by rewrite lookup_insert_eq|].
    split; [by rewrite lookup_insert_ne|].
    split; [done|].
    split; [|split].
    + split; [done|]. split; [done|]. right. exists n. split; [done|].
      cbn [Iterators.blocks]. by rewrite lookup_insert_eq.
    + split; [done|]. split; [done|].
      destruct Hcase as [Hnull|(l & Hp & Hl)]; [by left|right].
      exists l. split; [done|]. cbn [Iterators.blocks].
      rewrite lookup_insert_ne by (intros <-; by eapply Hfresh).
      by eapply after_delete_lookup_other.
    + destruct Hcase as [[-> _]|(l & Hp & Hl)]; [done|].
      rewrite Hp. cbn [Iterators.blk]. intros [= <-]. by eapply Hfresh.
  - intros <-.
    assert (o = a) as -> by congruence.
    assert (cs = cs_a) as -> by by eapply owns_unique.
    eexists. eexists.
    split; [by eapply copy_assign_self_ok|].
    cbn [Iterators.objs Iterators.mem Iterators.blocks Iterators.size_ Iterators.values_].
    assert (Iterators.owns
              {| Iterators.blocks :=
                   <[n := replicate (length cs_a) None]>
                     (Iterators.blocks
                        (Iterators.mem (Iterators.after_delete s (Iterators.values_ a))));
                 Iterators.next_block := S n;
                 Iterators.released :=
                   Iterators.released (Iterators.mem (Iterators.after_delete s (Iterators.values_ a))) |}
              {| Iterators.size_ := Iterators.size_ a;
                 Iterators.values_ := {| Iterators.blk := Some n; Iterators.off := 0 |} |}
              (replicate (length cs_a) None)) as Hnew.
    { destruct Hown_a as (Hlen & Hmax & _).
      split; [by rewrite length_replicate|]. split; [done|]. right. exists n. split; [done|].
      cbn [Iterators.blocks]. by rewrite lookup_insert_eq. }
    split; [by rewrite lookup_insert_eq|].
    split; [done|].
    split; [exact Hnew|].
    split.
    + intros l Hp.
      destruct (owns_pointer _ _ _ Hown_a) as [Hnull|(l' & Hp' & Hl')].
      { rewrite Hnull in Hp. discriminate. }
      rewrite Hp in Hp'. inversion Hp'; subst l'.
      rewrite lookup_insert_ne by (intros <-; by eapply Hfresh).
      by apply after_delete_lookup_self.
    + intros i v Hi Hold.
      pose proof (owns_unique _ _ _ _ Hnew Hold) as Heq.
      rewrite <- Heq in Hi. apply lookup_replicate in Hi. by destruct Hi.
Qed.

(** ** Concrete runs *)
Section ConcreteRuns.
Import Cxx Iterators.

Lemma two_arrays_constructed :
  run [ctor_list 0 O [1; 2; 3]; ctor_list 0 1%nat [7; 8]] initial = Ok (tt, two_arrays).
Proof. vm_compute. reflexivity. Qed.

Lemma two_arrays_heap_ok : heap_ok (mem two_arrays).
Proof.
  intros l [cs Hl]. simpl in *.
  destruct (decide (l = 1%nat)) as [->|H1]; [lia|].
  destruct (decide (l = 0%nat)) as [->|H0]; [lia|].
  rewrite !lookup_insert_ne in Hl by done. by rewrite lookup_empty in Hl.
Defined.

Lemma two_arrays_owns_0 :
  owns (mem two_arrays) {| size_ := 3; values_ := {| blk := Some O; off := 0 |} |}
       [Some 1; Some 2; Some 3].
Proof.
  split; [reflexivity|]. split; [vm_compute; discriminate|].
  right. exists O. split; reflexivity.
Defined.

Lemma two_arrays_owns_1 :
  owns (mem two_arrays) {| size_ := 2; values_ := {| blk := Some 1%nat; off := 0 |} |}
       [Some 7; Some 8].
Proof.
  split; [reflexivity|]. split; [vm_compute; discriminate|].
  right. exists 1%nat. split; reflexivity.
Defined.

End ConcreteRuns.

(** A third container copy-constructed at address 2 from the one at
    address 0. *)
Lemma copy_ctor_deep_copy_witness :
  exists (s' : Iterators.state Z) (c : Iterators.DynamicArray),
    Iterators.copy_ctor 0 2 0 Iterators.two_arrays = Cxx.Ok (tt, s')
    /\ Iterators.objs s' !! 2%nat = Some c
    /\ Iterators.size_ c = 3
    /\ Iterators.owns (Iterators.mem s') c [Some 1; Some 2; Some 3].
Proof.
  destruct (copy_ctor_deep_copy Z 0 Iterators.two_arrays 2 0
              {| Iterators.size_ := 3;
                 Iterators.values_ := {| Iterators.blk := Some O; Iterators.off := 0 |} |}
              [Some 1; Some 2; Some 3]
              ltac:(discriminate) two_arrays_heap_ok eq_refl two_arrays_owns_0)
    as (s' & c & Hrun & Hc & _ & Hsize & Hown & _).
  exists s', c. repeat split; try assumption; apply Hown.
Defined.

(** Assignment of the container at address 1 to the one at address 0, and of
    the container at address 0 to itself. *)
Lemma copy_assign_deep_copy_needs_distinct_objects_witness :
  (exists (s' : Iterators.state Z) (a' : Iterators.DynamicArray),
      Iterators.copy_assign 0 1 Iterators.two_arrays = Cxx.Ok (tt, s')
      /\ Iterators.objs s' !! O = Some a'
      /\ Iterators.owns (Iterators.mem s') a' [Some 7; Some 8])
  /\ (exists (s' : Iterators.state Z) (a' : Iterators.DynamicArray),
         Iterators.copy_assign 0 0 Iterators.two_arrays = Cxx.Ok (tt, s')
         /\ Iterators.objs s' !! O = Some a'
         /\ Iterators.owns (Iterators.mem s') a' [None; None; None]
         /\ ~ Iterators.owns (Iterators.mem s') a' [Some 1; Some 2; Some 3]).
Proof.
  split.
  - destruct (proj1 (copy_assign_deep_copy_needs_distinct_objects Z Iterators.two_arrays 0 1
                       {| Iterators.size_ := 3;
                          Iterators.values_ := {| Iterators.blk := Some O; Iterators.off := 0 |} |}
                       {| Iterators.size_ := 2;
                          Iterators.values_ := {| Iterators.blk := Some 1%nat; Iterators.off := 0 |} |}
                       [Some 1; Some 2; Some 3] [Some 7; Some 8]
                       two_arrays_heap_ok eq_refl eq_refl two_arrays_owns_0 two_arrays_owns_1)
                    ltac:(discriminate) ltac:(right; discriminate))
      as (s' & a' & Hrun & Ha & _ & _ & Hown & _).
    exists s', a'. repeat split; try assumption; apply Hown.
  - destruct (proj2 (copy_assign_deep_copy_needs_distinct_objects Z Iterators.two_arrays 0 0
                       {| Iterators.size_ := 3;
                          Iterators.values_ := {| Iterators.blk := Some O; Iterators.off := 0 |} |}
                       {| Iterators.size_ := 3;
                          Iterators.values_ := {| Iterators.blk := Some O; Iterators.off := 0 |} |}
                       [Some 1; Some 2; Some 3] [Some 1; Some 2; Some 3]
                       two_arrays_heap_ok eq_refl eq_refl two_arrays_owns_0 two_arrays_owns_0)
                    eq_refl)
      as (s' & a' & Hrun & Ha & _ & Hown & _ & Hlost).
    exists s', a'. split; [assumption|]. split; [assumption|]. split; [exact Hown|].
    exact (Hlost O 1 eq_refl).
Defined.

Section MoveProperties.
Import Cxx Iterators.
Context {T : Type}.
Variable value_init : T.

Implicit Types (s : state T) (cs : list (cell T)).

(** Move construction from a valid source: the new object takes the size and
    the elements, the storage of the source is released once and the source
    is left with size zero and a null pointer. *)
Lemma move_ctor_empties_source (this other : nat) (o : DynamicArray) cs s :
  this <> other -> heap_ok (mem s) -> objs s !! other = Some o -> owns (mem s) o cs ->
  exists (s' : state T) (c : DynamicArray),
    move_ctor value_init this other s = Ok (tt, s')
    /\ objs s' !! other = Some {| size_ := 0; values_ := nullptr |}
    /\ objs s' !! this = Some c
    /\ size_ c = size_ o
    /\ owns (mem s') c cs
    /\ (forall l : nat,
           values_ o = {| blk := Some l; off := 0 |} ->
           blocks (mem s') !! l = None /\ released (mem s') = l :: released (mem s)).
Proof.
  intros Hne Hheap Hother Hown.
  set (n := next_block (mem s)).
  set (c := {| size_ := size_ o; values_ := {| blk := Some n; off := 0 |} |}).
  set (s1 := {| objs := <[other := {| size_ := 0; values_ := values_ o |}]> (<[this := c]> (objs s));
                mem := {| blocks := <[n := cs]> (blocks (mem s));
                          next_block := S n;
                          released := released (mem s) |} |}).
  assert (forall l, blocks (mem s) !! l = Some cs -> l <> n) as Hfresh.
  { intros l Hl. specialize (Hheap l (mk_is_Some _ _ Hl)). unfold n. lia. }
  assert (move_ctor value_init this other s
          = Ok (tt, {| objs := <[other := {| size_ := 0; values_ := nullptr |}]> (objs s1);
                       mem := mem (after_delete s1 (values_ o)) |})) as Hrun.
  { unfold move_ctor. unfold bind at 1. unfold get at 1. rewrite Hother.
    unfold bind at 1. rewrite ctor_size_ok by (destruct Hown as (_ & ? & _); done).
    fold n. fold c.
    unfold bind at 1. unfold get at 1. cbn [objs]. rewrite lookup_insert_ne by done. rewrite Hother.
    unfold bind at 1. unfold get at 1. cbn [objs]. rewrite lookup_insert_eq.
    unfold c at 1. cbn [values_].
    assert (copy (values_ o) (ptr_add (values_ o) (size_ o)) {| blk := Some n; off := 0 |}
              {| objs := <[this := c]> (objs s);
                 mem := {| blocks := <[n := replicate (Z.to_nat (size_ o)) (Some value_init)]>
                                       (blocks (mem s));
                           next_block := S n;
                           released := released (mem s) |} |}
            = Ok (tt, {| objs := <[this := c]> (objs s);
                         mem := {| blocks := <[n := cs]> (blocks (mem s));
                                   next_block := S n;
                                   released := released (mem s) |} |})) as Hcopy.
    { destruct Hown as (Hlen & Hmax & [[Hnull ->]|(l & Hp & Hl)]).
      - simpl in Hlen. rewrite <- Hlen. rewrite copy_nothing. reflexivity.
      - rewrite Hp, <- Hlen. erewrite copy_whole.
        + unfold with_blocks. cbn [objs mem blocks next_block released].
          by rewrite insert_insert_eq.
        + cbn [mem blocks]. rewrite lookup_insert_ne; [done|]. intros <-. by eapply Hfresh.
        + cbn [mem blocks]. by rewrite lookup_insert_eq.
        + rewrite length_replicate. lia. }
    unfold bind at 1. rewrite Hcopy.
    unfold bind at 1. unfold set_size_, bind at 1, get at 1. cbn [objs].
    rewrite lookup_insert_ne by done. rewrite Hother. unfold put. cbn [objs mem].
    fold s1.
    unfold bind at 1. unfold get at 1. unfold s1 at 1. cbn [objs].
    rewrite lookup_insert_eq. cbn [values_].
    unfold bind at 1. erewrite (delete_array_ok s1 (values_ o) cs).
    - assert (objs (after_delete s1 (values_ o)) = objs s1) as Hobjs.
      { unfold after_delete. by destruct (blk (values_ o)). }
      unfold set_values_, bind, get, put. cbv beta. rewrite Hobjs.
      unfold s1 at 1. cbn [objs]. rewrite lookup_insert_eq. cbn [size_]. by rewrite Hobjs.
    - destruct (owns_pointer _ _ _ Hown) as [Hnull|(l & Hp & Hl)]; [by left|right].
      exists l. split; [done|]. unfold s1. cbn [mem blocks].
      rewrite lookup_insert_ne; [done|]. intros <-. by eapply Hfresh. }
  eexists. exists c. split; [exact Hrun|].
  cbn [objs mem].
  split; [by rewrite lookup_insert_eq|].
  split.
  { unfold s1. cbn [objs]. rewrite !lookup_insert_ne by done. by rewrite lookup_insert_eq. }
  split; [done|].
  destruct Hown as (Hlen & Hmax & Hcase).
  split.
  - split; [done|]. split; [done|]. right. exists n. split; [done|].
    unfold after_delete, s1.
    destruct Hcase as [[-> _]|(l & Hp & Hl)].
    + unfold nullptr. cbn [blk mem blocks]. by rewrite lookup_insert_eq.
    + rewrite Hp. cbn [blk mem blocks].
      rewrite lookup_delete_ne by (by eapply Hfresh). by rewrite lookup_insert_eq.
  - intros l Hp. unfold after_delete, s1. rewrite Hp. cbn [blk mem blocks released].
    split; [apply lookup_delete_eq|done].
Qed.

End MoveProperties.

(** C3. Move construction leaves its source with size zero and a null
    storage pointer.  Move assignment does not: after [a = std::move(b)] on
    two containers of size 5, [b] has size 0 but still holds the pointer to
    its storage, which has been released; where [delete] of array storage is
    not tolerated the assignment is undefined at its first [delete]. *)
Theorem move_assign_keeps_source_pointer :
  (exists s : Iterators.state Z,
      Iterators.run [Iterators.ctor_size 0 1 5; Iterators.move_ctor 0 0 1] Iterators.initial
      = Cxx.Ok (tt, s)
      /\ Iterators.objs s !! 1%nat
         = Some {| Iterators.size_ := 0; Iterators.values_ := Iterators.nullptr |})
  /\ (exists s : Iterators.state Z,
         Iterators.run [Iterators.ctor_size 0 0 5; Iterators.ctor_size 0 1 5;
                        Iterators.move_assign Iterators.Lenient 0 1] Iterators.initial
         = Cxx.Ok (tt, s)
         /\ Iterators.objs s !! 1%nat
            = Some {| Iterators.size_ := 0;
                      Iterators.values_ := {| Iterators.blk := Some 1%nat; Iterators.off := 0 |} |}
         /\ {| Iterators.blk := Some 1%nat; Iterators.off := 0 |} <> Iterators.nullptr
         /\ Iterators.blocks (Iterators.mem s) !! 1%nat = None
         /\ Iterators.released (Iterators.mem s) = [1%nat; 0%nat])
  /\ Iterators.run [Iterators.ctor_size 0 0 5; Iterators.ctor_size 0 1 5;
                    Iterators.move_assign Iterators.Strict 0 1] (Iterators.initial (T := Z))
     = Cxx.Undefined (Cxx.MismatchedDelete 0).
Proof.
  split; [|split].
  - eexists. split; vm_compute; reflexivity.
  - eexists. split; [vm_compute; reflexivity|].
    split; [vm_compute; reflexivity|].
    split; [discriminate|].
    split; vm_compute; reflexivity.
  - vm_compute. reflexivity.
Qed.

(** C4. The discipline "every buffer released exactly once" holds on the
    paths through the constructors, copy assignment and the destructor: a
    run through all of them ends with no live allocation and each of the six
    allocations released once.  It fails on move assignment: in the block
    [{ DynamicArray a(5), b(5); a = std::move(b); }] the destructor of [b]
    releases the storage that the assignment has already released, and
    moving a container into itself ends the same way. *)
Theorem move_assign_breaks_single_release :
  Iterators.run [Iterators.ctor_list 0 0 [1; 2; 3; 4; 5]; Iterators.copy_ctor 0 1 0;
                 Iterators.move_ctor 0 2 0; Iterators.ctor_fill 0 3 2 9;
                 Iterators.copy_assign 3 1; Iterators.copy_assign 1 1;
                 Iterators.dtor 3; Iterators.dtor 2; Iterators.dtor 1; Iterators.dtor 0]
                Iterators.initial
  = Cxx.Ok (tt, {| Iterators.objs := ∅;
                   Iterators.mem := {| Iterators.blocks := ∅;
                                       Iterators.next_block := 6;
                                       Iterators.released := [5; 2; 4; 1; 3; 0]%nat |} |})
  /\ Iterators.run [Iterators.ctor_size 0 0 5; Iterators.ctor_size 0 1 5;
                    Iterators.move_assign Iterators.Lenient 0 1;
                    Iterators.dtor 1; Iterators.dtor 0] (Iterators.initial (T := Z))
     = Cxx.Undefined (Cxx.DoubleFree 1)
  /\ Iterators.run [Iterators.ctor_size 0 0 5; Iterators.ctor_size 0 1 5;
                    Iterators.move_assign Iterators.Strict 0 1;
                    Iterators.dtor 1; Iterators.dtor 0] (Iterators.initial (T := Z))
     = Cxx.Undefined (Cxx.MismatchedDelete 0)
  /\ Iterators.run [Iterators.ctor_size 0 0 5; Iterators.move_assign Iterators.Lenient 0 0;
                    Iterators.dtor 0] (Iterators.initial (T := Z))
     = Cxx.Undefined (Cxx.DoubleFree 1).
Proof. repeat split; vm_compute; reflexivity. Qed.

(** ** The single-owner discipline *)
Section Discipline.
Import Cxx Iterators.
Context {T : Type}.
Variable value_init : T.

Implicit Types (s : state T) (cs : list (cell T)) (a b : DynamicArray).


Lemma owns_blk_some (h : heap T) a cs (l : nat) :
  owns h a cs -> blk (values_ a) = Some l ->
  values_ a = {| blk := Some l; off := 0 |} /\ blocks h !! l = Some cs.
Proof.
  intros (_ & _ & [[Hn _]|(l' & Hp & Hl)]) Hb.
  - rewrite Hn in Hb. discriminate.
  - rewrite Hp in Hb. simpl in Hb. inversion Hb; subst. by split.
Qed.

Lemma owns_blk_none (h : heap T) a cs :
  owns h a cs -> blk (values_ a) = None ->
  a = {| size_ := 0; values_ := nullptr |}.
Proof.
  intros (Hlen & _ & [[Hn ->]|(l' & Hp & Hl)]) Hb.
  - destruct a as [sz p]. simpl in *. subst. reflexivity.
  - rewrite Hp in Hb. discriminate.
Qed.

Lemma owns_empty (h : heap T) : owns h {| size_ := 0; values_ := nullptr |} [].
Proof. split; [done|]. split; [done|]. by left. Qed.


Lemma relinquish_empty (x : nat) s a :
  objs s !! x = Some a -> blk (values_ a) = None ->
  (exists cs, owns (mem s) a cs) -> relinquish x s = s.
Proof.
  intros Hx Hb [cs Hown]. unfold relinquish. rewrite Hx.
  pose proof (owns_blk_none _ _ _ Hown Hb) as ->.
  unfold after_delete. simpl. rewrite insert_id by done. by destruct s.
Qed.






(** What each statement does to the state, in terms of the three changes. *)
Lemma ctor_size_exec (this : nat) (size : Z) s :
  size <= PTRDIFF_MAX ->
  ctor_size value_init this size s
  = Ok (tt, bind_fresh this size (replicate (Z.to_nat size) (Some value_init)) s).
Proof. intros Hmax. by rewrite ctor_size_ok. Qed.


Lemma ctor_list_exec (this : nat) (l : list T) s :
  Z.of_nat (length l) <= PTRDIFF_MAX ->
  ctor_list value_init this l s
  = Ok (tt, bind_fresh this (Z.of_nat (length l)) (Some <$> l) s).
Proof.
  intros Hsize. unfold ctor_list. unfold bind at 1. rewrite ctor_size_ok by lia.
  unfold bind at 1. unfold get at 1. cbn [objs]. rewrite lookup_insert_eq. cbn [values_ size_].
  unfold copy_list. erewrite write_range_whole.
  - unfold with_blocks, bind_fresh. cbn [objs mem blocks next_block released].
    by rewrite insert_insert_eq.
  - cbn [mem blocks]. by rewrite lookup_insert_eq.
  - by rewrite length_fmap, length_replicate, Nat2Z.id.
Qed.


Lemma after_delete_next s (p : pointer) :
  next_block (mem (after_delete s p)) = next_block (mem s).
Proof. unfold after_delete. by destruct (blk p). Qed.





Lemma dtor_exec (this : nat) (a : DynamicArray) cs s :
  objs s !! this = Some a -> owns (mem s) a cs ->
  dtor (T := T) this s = Ok (tt, forget this (relinquish this s)).
Proof.
  intros Hthis Hown. unfold dtor. unfold bind at 1. unfold get at 1. rewrite Hthis.
  assert (forget this (relinquish this s)
          = {| objs := delete this (objs s); mem := mem (after_delete s (values_ a)) |}) as ->.
  { unfold forget, relinquish. rewrite Hthis. cbn [objs mem]. by rewrite delete_insert_eq. }
  unfold bind at 1. case_decide as Hnull.
  - erewrite delete_array_ok by (eapply owns_pointer; exact Hown).
    unfold end_lifetime. f_equal. f_equal.
    unfold after_delete. by destruct (blk (values_ a)).
  - rewrite Hnull. reflexivity.
Qed.









End Discipline.



(** ** Construction, destruction and move construction *)
Section LifecycleProperties.
Import Cxx Iterators.
Context {T : Type}.
Variable value_init : T.

Implicit Types (s : state T) (cs : list (cell T)).

(** Reading the elements of a freshly bound container through [operator[]]. *)
Lemma bind_fresh_reads (x : nat) (size : Z) cs s (idx : Z) (c : cell T) :
  Z.of_nat (length cs) = size -> 0 <= idx < size -> idx <= INT_MAX ->
  cs !! Z.to_nat idx = Some c ->
  exists p : pointer,
    subscript {| size_ := size;
                 values_ := {| blk := Some (next_block (mem s)); off := 0 |} |} idx = Ok p
    /\ load p (bind_fresh x size cs s) = Ok (c, bind_fresh x size cs s).
Proof.
  intros Hlen Hidx Hint Hc. eexists. split; [by apply subscript_in_range|].
  unfold ptr_add. cbn [values_ blk off].
  replace (0 + idx) with (Z.of_nat (Z.to_nat idx)) by lia.
  eapply load_owned; [|exact Hc].
  unfold bind_fresh. cbn [mem blocks]. by rewrite lookup_insert_eq.
Qed.

Lemma bind_fresh_owns (x : nat) (size : Z) cs s :
  Z.of_nat (length cs) = size -> size <= PTRDIFF_MAX ->
  owns (mem (bind_fresh x size cs s))
       {| size_ := size; values_ := {| blk := Some (next_block (mem s)); off := 0 |} |} cs.
Proof.
  intros Hlen Hmax. split; [done|]. split; [done|]. right. eexists. split; [done|].
  unfold bind_fresh. cbn [mem blocks]. by rewrite lookup_insert_eq.
Qed.



End LifecycleProperties.



(** X3. The constructor from a list: the container has the length of the
    list, holds its elements in order, and [operator[]] at position [i]
    reads the [i]-th element of the list. *)
Theorem ctor_list_holds_the_list :
  forall (T : Type) (value_init : T) (this : nat) (l : list T) (s : Iterators.state T),
    Z.of_nat (length l) <= Cxx.PTRDIFF_MAX ->
    exists (s' : Iterators.state T) (a : Iterators.DynamicArray),
      Iterators.ctor_list value_init this l s = Cxx.Ok (tt, s')
      /\ Iterators.objs s' !! this = Some a
      /\ Iterators.size_ a = Z.of_nat (length l)
      /\ Iterators.owns (Iterators.mem s') a (Some <$> l)
      /\ (forall (i : nat) (x : T),
             l !! i = Some x -> Z.of_nat i <= Cxx.INT_MAX ->
             exists p : Iterators.pointer,
               Iterators.subscript a (Z.of_nat i) = Cxx.Ok p
               /\ Iterators.load p s' = Cxx.Ok (Some x, s')).
Proof.
  intros T value_init this l s Hmax.
  eexists. eexists. split; [by apply ctor_list_exec|].
  split; [unfold Iterators.bind_fresh; cbn [Iterators.objs]; by rewrite lookup_insert_eq|].
  split; [done|].
  split; [apply bind_fresh_owns; [by rewrite length_fmap|done]|].
  intros i x Hi Hint. pose proof (lookup_lt_Some _ _ _ Hi) as Hlt.
  apply bind_fresh_reads; [by rewrite length_fmap|lia|done|].
  rewrite Nat2Z.id, list_lookup_fmap, Hi. reflexivity.
Qed.

(** [DynamicArray<int> a{10, 20, 30}], read at position 1. *)
Lemma ctor_list_holds_the_list_witness :
  exists (s' : Iterators.state Z) (a : Iterators.DynamicArray),
    Iterators.ctor_list 0 0 [10; 20; 30] Iterators.initial = Cxx.Ok (tt, s')
    /\ Iterators.objs s' !! O = Some a
    /\ (exists p : Iterators.pointer,
           Iterators.subscript a 1 = Cxx.Ok p
           /\ Iterators.load p s' = Cxx.Ok (Some 20, s')).
Proof.
  destruct (ctor_list_holds_the_list Z 0 0 [10; 20; 30] Iterators.initial
              ltac:(vm_compute; discriminate))
    as (s' & a & Hrun & Ha & _ & _ & Hread).
  exists s', a. split; [exact Hrun|]. split; [exact Ha|].
  apply (Hread 1%nat 20 eq_refl). vm_compute. discriminate.
Defined.

(** X4. The destructor ends the lifetime of the object and releases its
    allocation exactly once, leaving every other allocation as it was; for an
    object that holds no storage, as a moved-from one, it releases nothing.
    Destroying an object whose pointer refers to storage already released
    is the double release. *)
Theorem dtor_releases_storage_once :
  forall (T : Type) (s : Iterators.state T) (this : nat) (a : Iterators.DynamicArray),
    Iterators.objs s !! this = Some a ->
    ((exists cs : list (Iterators.cell T), Iterators.owns (Iterators.mem s) a cs) ->
     exists s' : Iterators.state T,
       Iterators.dtor this s = Cxx.Ok (tt, s')
       /\ Iterators.objs s' = delete this (Iterators.objs s)
       /\ Iterators.next_block (Iterators.mem s') = Iterators.next_block (Iterators.mem s)
       /\ (Iterators.values_ a = Iterators.nullptr -> Iterators.mem s' = Iterators.mem s)
       /\ (forall l : nat,
              Iterators.values_ a = {| Iterators.blk := Some l; Iterators.off := 0 |} ->
              Iterators.blocks (Iterators.mem s') = delete l (Iterators.blocks (Iterators.mem s))
              /\ Iterators.released (Iterators.mem s') = l :: Iterators.released (Iterators.mem s)))
    /\ (forall l : nat,
           Iterators.values_ a = {| Iterators.blk := Some l; Iterators.off := 0 |} ->
           Iterators.blocks (Iterators.mem s) !! l = None ->
           l ∈ Iterators.released (Iterators.mem s) ->
           Iterators.dtor this s = Cxx.Undefined (Cxx.DoubleFree l)).
Proof.
  intros T s this a Hthis. split.
  - intros [cs Hown]. eexists. split; [by eapply dtor_exec|].
    unfold Iterators.forget, Iterators.relinquish. rewrite Hthis.
    cbn [Iterators.objs Iterators.mem].
    split; [by rewrite delete_insert_eq|].
    split; [apply after_delete_next|].
    split.
    + intros ->. reflexivity.
    + intros l Hp. unfold Iterators.after_delete. rewrite Hp. by cbn.
  - intros l Hp Hdead Hrel.
    unfold Iterators.dtor, Iterators.bind, Iterators.get. rewrite Hthis.
    rewrite decide_True by (by rewrite Hp).
    unfold Iterators.delete_array. rewrite decide_False by (by rewrite Hp).
    unfold Iterators.release, Iterators.bind, Iterators.get_mem. rewrite Hp.
    cbn [Iterators.blk]. rewrite Hdead. by rewrite bool_decide_eq_true_2.
Qed.

(** The container [{7, 8}] at address 1 of the state of two containers. *)
Lemma dtor_releases_storage_once_witness :
  exists s' : Iterators.state Z,
    Iterators.dtor 1 Iterators.two_arrays = Cxx.Ok (tt, s')
    /\ Iterators.blocks (Iterators.mem s')
       = delete 1%nat (Iterators.blocks (Iterators.mem Iterators.two_arrays))
    /\ Iterators.released (Iterators.mem s') = [1%nat].
Proof.
  destruct (proj1 (dtor_releases_storage_once Z Iterators.two_arrays 1
                     {| Iterators.size_ := 2;
                        Iterators.values_ := {| Iterators.blk := Some 1%nat; Iterators.off := 0 |} |}
                     eq_refl)
              (ex_intro _ [Some 7; Some 8] two_arrays_owns_1))
    as (s' & Hrun & _ & _ & _ & Hrel).
  exists s'. split; [exact Hrun|]. exact (Hrel 1%nat eq_refl).
Defined.

(** X5. Move construction from a valid source: the new object takes the
    size and the elements; the source is left with size zero and a null
    pointer, a valid empty container in which every index raises the range
    error and whose destructor releases nothing. *)
Theorem move_ctor_leaves_source_empty_and_destructible :
  forall (T : Type) (value_init : T) (s : Iterators.state T) (this other : nat)
         (o : Iterators.DynamicArray) (cs : list (Iterators.cell T)),
    this <> other ->
    Iterators.heap_ok (Iterators.mem s) ->
    Iterators.objs s !! other = Some o ->
    Iterators.owns (Iterators.mem s) o cs ->
    exists (s' : Iterators.state T) (c : Iterators.DynamicArray),
      Iterators.move_ctor value_init this other s = Cxx.Ok (tt, s')
      /\ Iterators.objs s' !! this = Some c
      /\ Iterators.size_ c = Iterators.size_ o
      /\ Iterators.owns (Iterators.mem s') c cs
      /\ Iterators.objs s' !! other
         = Some {| Iterators.size_ := 0; Iterators.values_ := Iterators.nullptr |}
      /\ Iterators.owns (Iterators.mem s')
           {| Iterators.size_ := 0; Iterators.values_ := Iterators.nullptr |} []
      /\ (forall idx : Z,
             Cxx.INT_MIN <= idx <= Cxx.INT_MAX ->
             Iterators.subscript
               {| Iterators.size_ := 0; Iterators.values_ := Iterators.nullptr |} idx
             = Cxx.Throw (Iterators.invalid_index idx 0))
      /\ (exists s'' : Iterators.state T,
             Iterators.dtor other s' = Cxx.Ok (tt, s'')
             /\ Iterators.mem s'' = Iterators.mem s'
             /\ Iterators.objs s'' !! this = Some c).
Proof.
  intros T value_init s this other o cs Hne Hheap Hother Hown.
  destruct (move_ctor_empties_source value_init this other o cs s Hne Hheap Hother Hown)
    as (s' & c & Hrun & Hsrc & Hc & Hsize & Hown_c & _).
  exists s', c. split; [exact Hrun|]. split; [exact Hc|]. split; [exact Hsize|].
  split; [exact Hown_c|]. split; [exact Hsrc|]. split; [apply owns_empty|].
  split.
  - intros idx Hint.
    apply (subscript_out_of_range
             {| Iterators.size_ := 0; Iterators.values_ := Iterators.nullptr |} idx);
      [vm_compute; discriminate|done|simpl; lia].
  - eexists. split; [eapply dtor_exec; [exact Hsrc|apply owns_empty]|].
    rewrite (relinquish_empty other s' _ Hsrc eq_refl)
      by (eexists; apply owns_empty).
    unfold Iterators.forget. cbn [Iterators.mem Iterators.objs].
    split; [done|]. by rewrite lookup_delete_ne.
Qed.

(** A container moved out of the one at address 0 of the state of two
    containers, into address 2. *)
Lemma move_ctor_leaves_source_empty_and_destructible_witness :
  exists (s' : Iterators.state Z) (c : Iterators.DynamicArray),
    Iterators.move_ctor 0 2 0 Iterators.two_arrays = Cxx.Ok (tt, s')
    /\ Iterators.objs s' !! 2%nat = Some c
    /\ Iterators.owns (Iterators.mem s') c [Some 1; Some 2; Some 3]
    /\ Iterators.objs s' !! O
       = Some {| Iterators.size_ := 0; Iterators.values_ := Iterators.nullptr |}.
Proof.
  destruct (move_ctor_leaves_source_empty_and_destructible Z 0 Iterators.two_arrays 2 0
              {| Iterators.size_ := 3;
                 Iterators.values_ := {| Iterators.blk := Some O; Iterators.off := 0 |} |}
              [Some 1; Some 2; Some 3]
              ltac:(discriminate) two_arrays_heap_ok eq_refl two_arrays_owns_0)
    as (s' & c & Hrun & Hc & _ & Hown & Hsrc & _).
  exists s', c. split; [exact Hrun|]. split; [exact Hc|]. split; [exact Hown|exact Hsrc].
Defined.

(** ** Traversals with the cursor *)
Section LoopProperties.
Import Cxx Iterators.
Context {T : Type}.

Implicit Types (s : state T) (cs : list (cell T)).

(** The rule of the loop: an invariant [I k acc s] of the number [k] of
    elements passed, the values carried and the state, kept by the body at
    each of the [n] positions from [off0] on, holds with [k = n] when the
    loop ends, and [n] units of fuel suffice. *)
Lemma for_loop_rule {A : Type} (I : nat -> A -> state T -> Prop)
    (body : pointer -> A -> M T A) (b : option nat) (off0 : Z) (n : nat) :
  (forall (k : nat) (acc : A) s,
      (k < n)%nat -> I k acc s ->
      exists (acc' : A) (s' : state T),
        body {| blk := b; off := off0 + Z.of_nat k |} acc s = Ok (acc', s')
        /\ I (S k) acc' s') ->
  forall (m k fuel : nat) (acc : A) s,
    (k + m = n)%nat -> (m <= fuel)%nat -> I k acc s ->
    exists (acc' : A) (s' : state T),
      for_loop fuel {| ptr_ := {| blk := b; off := off0 + Z.of_nat k |} |}
                    {| ptr_ := {| blk := b; off := off0 + Z.of_nat n |} |} body acc s
      = Ok (Some acc', s')
      /\ I n acc' s'.
Proof.
  intros Hbody m. induction m as [|m IH]; intros k fuel acc s Hk Hfuel HI.
  - assert (k = n) as -> by lia. exists acc, s. split; [|done].
    destruct fuel; simpl; unfold iter_ne; cbn [ptr_];
      by rewrite bool_decide_eq_true_2.
  - destruct fuel as [|fuel]; [lia|].
    destruct (Hbody k acc s ltac:(lia) HI) as (acc1 & s1 & Hstep & HI1).
    destruct (IH (S k) fuel acc1 s1 ltac:(lia) ltac:(lia) HI1) as (acc' & s' & Hrest & HI').
    exists acc', s'. split; [|done].
    cbn [for_loop]. unfold iter_ne. cbn [ptr_].
    rewrite bool_decide_eq_false_2 by (intros [= Heq]; lia).
    cbn [negb]. unfold iter_deref. cbn [ptr_]. unfold bind at 1. rewrite Hstep.
    unfold iter_pre_inc, ptr_add. cbn [ptr_ blk off].
    replace (off0 + Z.of_nat k + 1) with (off0 + Z.of_nat (S k)) by lia.
    exact Hrest.
Qed.

(** The cursors of a valid container as positions of one allocation. *)
Lemma begin_end_positions (a : DynamicArray) (h : heap T) cs :
  owns h a cs ->
  exists b : option nat,
    begin_ a = {| ptr_ := {| blk := b; off := 0 + Z.of_nat O |} |}
    /\ end_ a = {| ptr_ := {| blk := b; off := 0 + Z.of_nat (length cs) |} |}
    /\ blk (values_ a) = b
    /\ (cs <> [] -> exists l : nat, b = Some l /\ blocks h !! l = Some cs).
Proof.
  intros (Hlen & _ & [[Hn ->]|(l & Hp & Hl)]).
  - exists None. unfold begin_, end_, ptr_add. rewrite Hn, <- Hlen. by repeat split.
  - exists (Some l). unfold begin_, end_, ptr_add. rewrite Hp, <- Hlen.
    repeat split. intros _. by exists l.
Qed.

Lemma read_all_owned (a : DynamicArray) cs s (fuel : nat) :
  owns (mem s) a cs -> (length cs <= fuel)%nat ->
  read_all fuel (begin_ a) (end_ a) s = Ok (Some cs, s).
Proof.
  intros Hown Hfuel.
  destruct (begin_end_positions a (mem s) cs Hown) as (b & -> & -> & _ & Hb).
  unfold read_all.
  destruct (for_loop_rule
              (fun k seen s' => s' = s /\ seen = take k cs)
              (fun p seen => bind (load p) (fun c => ret (seen ++ [c])))
              b 0 (length cs)) with (m := length cs) (k := O) (fuel := fuel)
              (acc := @nil (cell T)) (s := s)
    as (seen & s' & Hrun & -> & ->); [|done..|].
  - intros k seen s' Hk [-> ->].
    destruct (lookup_lt_is_Some_2 cs k Hk) as [c Hc].
    destruct Hb as (l & -> & Hl); [by intros ->|].
    exists (take k cs ++ [c]), s. split.
    + unfold bind. rewrite Z.add_0_l, (load_owned l cs k c s Hl Hc). reflexivity.
    + split; [done|]. by rewrite (take_S_r cs k c).
  - rewrite Hrun. by rewrite firstn_all.
Qed.

Lemma write_step (cs : list (cell T)) (k : nat) (v : T) :
  (k < length cs)%nat ->
  <[k := Some v]> (replicate k (Some v) ++ drop k cs)
  = replicate (S k) (Some v) ++ drop (S k) cs.
Proof.
  intros Hk. destruct (lookup_lt_is_Some_2 cs k Hk) as [c Hc].
  rewrite insert_app_r_alt by (rewrite length_replicate; lia).
  rewrite length_replicate, Nat.sub_diag.
  rewrite (drop_S cs c k Hc). cbn [insert list_insert].
  by rewrite replicate_S_end, <- app_assoc.
Qed.

Lemma write_all_owned (a : DynamicArray) cs s (fuel : nat) (v : T) :
  owns (mem s) a cs -> (length cs <= fuel)%nat ->
  exists s' : state T,
    write_all fuel (begin_ a) (end_ a) v s = Ok (Some tt, s')
    /\ owns (mem s') a (replicate (length cs) (Some v))
    /\ objs s' = objs s
    /\ next_block (mem s') = next_block (mem s)
    /\ released (mem s') = released (mem s)
    /\ (forall l : nat, blk (values_ a) <> Some l ->
                        blocks (mem s') !! l = blocks (mem s) !! l).
Proof.
  intros Hown Hfuel.
  destruct (begin_end_positions a (mem s) cs Hown) as (b & -> & -> & Hblk & Hb).
  destruct (decide (cs = [])) as [->|Hne].
  { exists s. split.
    - unfold write_all. destruct fuel; simpl; unfold iter_ne; cbn [ptr_];
        by rewrite bool_decide_eq_true_2.
    - split; [exact Hown|]. by repeat split. }
  destruct Hb as (l & -> & Hl); [done|].
  destruct (owns_blk_some (mem s) a cs l Hown Hblk) as [Hp _].
  unfold write_all.
  destruct (for_loop_rule
              (fun k (_ : unit) s' =>
                 s' = with_blocks s (<[l := replicate k (Some v) ++ drop k cs]> (blocks (mem s))))
              (fun p _ => store p v)
              (Some l) 0 (length cs)) with (m := length cs) (k := O) (fuel := fuel)
              (acc := tt) (s := s)
    as ([] & s' & Hrun & ->); [|done..| |].
  - intros k [] s' Hk ->. exists tt. eexists. split.
    + rewrite Z.add_0_l. erewrite store_owned.
      * reflexivity.
      * unfold with_blocks. cbn [mem blocks]. by rewrite lookup_insert_eq.
      * rewrite length_app, length_replicate, length_drop. unfold cell in *. lia.
    + unfold with_blocks. cbn [objs mem blocks next_block released].
      by rewrite insert_insert_eq, write_step.
  - cbn [replicate app]. rewrite drop_0, insert_id by done. by rewrite with_blocks_id.
  - eexists. split; [exact Hrun|].
    unfold with_blocks. cbn [objs mem blocks next_block released].
    rewrite drop_all, app_nil_r.
    split.
    { destruct Hown as (Hlen & Hmax & _).
      split; [by rewrite length_replicate|]. split; [done|]. right. exists l.
      split; [done|]. cbn [blocks]. by rewrite lookup_insert_eq. }
    repeat split. intros l' Hother. rewrite lookup_insert_ne; [done|].
    intros <-. apply Hother. by rewrite Hp.
Qed.

Lemma iter_pre_inc_repeat (n : nat) (it : iterator) :
  Nat.iter n iter_pre_inc it = iter_plus it (Z.of_nat n).
Proof.
  induction n as [|n IH].
  - simpl. unfold iter_plus. by rewrite ptr_add_0; destruct it.
  - rewrite Nat.iter_succ, IH. unfold iter_pre_inc, iter_plus. simpl.
    rewrite ptr_add_add. do 2 f_equal. lia.
Qed.

End LoopProperties.

(** X6. Forward traversal of a valid container: [size_] increments of
    [begin()] give [end()]; after [k] increments the cursor refers to
    element [k]; the loop from [begin()] to [end()] with [operator!=],
    [operator++] and [operator*] ends after [size_] steps, has read the
    elements in order, each once, and has changed nothing.  [cbegin()] and
    [cend()] are the same positions. *)
Theorem forward_traversal_reads_elements_in_order :
  forall (T : Type) (s : Iterators.state T) (a : Iterators.DynamicArray)
         (cs : list (Iterators.cell T)),
    Iterators.owns (Iterators.mem s) a cs ->
    Nat.iter (length cs) Iterators.iter_pre_inc (Iterators.begin_ a) = Iterators.end_ a
    /\ (forall (k : nat) (c : Iterators.cell T),
           cs !! k = Some c ->
           Iterators.load
             (Iterators.iter_deref (Nat.iter k Iterators.iter_pre_inc (Iterators.begin_ a))) s
           = Cxx.Ok (c, s))
    /\ (forall fuel : nat,
           (length cs <= fuel)%nat ->
           Iterators.read_all fuel (Iterators.begin_ a) (Iterators.end_ a) s
           = Cxx.Ok (Some cs, s))
    /\ Iterators.cbegin a = Iterators.begin_ a
    /\ Iterators.cend a = Iterators.end_ a.
Proof.
  intros T s a cs Hown. split; [|split; [|split; [|by split]]].
  - rewrite iter_pre_inc_repeat. destruct Hown as (Hlen & _).
    unfold Iterators.iter_plus, Iterators.begin_, Iterators.end_. cbn. by rewrite Hlen.
  - intros k c Hc. rewrite iter_pre_inc_repeat.
    destruct Hown as (_ & _ & [[_ ->]|(l & Hp & Hl)]); [done|].
    unfold Iterators.iter_deref, Iterators.iter_plus, Iterators.begin_, Iterators.ptr_add.
    cbn. rewrite Hp. cbn. by eapply load_owned.
  - intros fuel Hfuel. by apply read_all_owned.
Qed.

(** The container [{1, 2, 3}] of the state of two containers. *)
Lemma forward_traversal_reads_elements_in_order_witness :
  Iterators.read_all 5
    (Iterators.begin_ {| Iterators.size_ := 3;
                         Iterators.values_ := {| Iterators.blk := Some O; Iterators.off := 0 |} |})
    (Iterators.end_ {| Iterators.size_ := 3;
                       Iterators.values_ := {| Iterators.blk := Some O; Iterators.off := 0 |} |})
    Iterators.two_arrays
  = Cxx.Ok (Some [Some 1; Some 2; Some 3], Iterators.two_arrays).
Proof.
  apply (proj1 (proj2 (proj2 (forward_traversal_reads_elements_in_order Z Iterators.two_arrays
                                _ _ two_arrays_owns_0))) 5%nat).
  simpl. lia.
Defined.

(** X7. Writing through the cursor: the loop from [begin()] to [end()] that
    assigns a value through [operator*] ends after [size_] steps and leaves
    the container valid with every element equal to that value; the objects,
    the other allocations and the record of releases are as before. *)
Theorem traversal_writes_every_element :
  forall (T : Type) (s : Iterators.state T) (a : Iterators.DynamicArray)
         (cs : list (Iterators.cell T)) (fuel : nat) (v : T),
    Iterators.owns (Iterators.mem s) a cs ->
    (length cs <= fuel)%nat ->
    exists s' : Iterators.state T,
      Iterators.write_all fuel (Iterators.begin_ a) (Iterators.end_ a) v s = Cxx.Ok (Some tt, s')
      /\ Iterators.owns (Iterators.mem s') a (replicate (length cs) (Some v))
      /\ Iterators.objs s' = Iterators.objs s
      /\ Iterators.next_block (Iterators.mem s') = Iterators.next_block (Iterators.mem s)
      /\ Iterators.released (Iterators.mem s') = Iterators.released (Iterators.mem s)
      /\ (forall l : nat,
             Iterators.blk (Iterators.values_ a) <> Some l ->
             Iterators.blocks (Iterators.mem s') !! l = Iterators.blocks (Iterators.mem s) !! l).
Proof. intros T s a cs fuel v Hown Hfuel. by apply write_all_owned. Qed.

(** The container [{7, 8}] of the state of two containers, filled with 0. *)
Lemma traversal_writes_every_element_witness :
  exists s' : Iterators.state Z,
    Iterators.write_all 2
      (Iterators.begin_ {| Iterators.size_ := 2;
                           Iterators.values_ := {| Iterators.blk := Some 1%nat; Iterators.off := 0 |} |})
      (Iterators.end_ {| Iterators.size_ := 2;
                         Iterators.values_ := {| Iterators.blk := Some 1%nat; Iterators.off := 0 |} |})
      0 Iterators.two_arrays
    = Cxx.Ok (Some tt, s')
    /\ Iterators.blocks (Iterators.mem s') !! O = Some [Some 1; Some 2; Some 3].
Proof.
  destruct (traversal_writes_every_element Z Iterators.two_arrays _ _ 2%nat 0
              two_arrays_owns_1 ltac:(simpl; lia))
    as (s' & Hrun & _ & _ & _ & _ & Hother).
  exists s'. split; [exact Hrun|].
  etransitivity; [apply Hother; discriminate|reflexivity].
Defined.

(** X8. The moves of a cursor compose like the addition of their offsets:
    [+] and [-], [+=] and [-=], [++] and [--] undo each other, [n]
    increments are [+ n], the post-increment and post-decrement return the
    cursor as it was, and [n + it] is [it + n].  For two cursors into one
    buffer, [==] holds exactly when their difference is 0, [!=] is its
    negation, and the difference undoes the addition. *)
Theorem cursor_moves_compose :
  forall (it it' : Iterators.iterator) (i j : Z) (n : nat),
    Iterators.iter_plus (Iterators.iter_plus it i) j = Iterators.iter_plus it (i + j)
    /\ Iterators.iter_minus (Iterators.iter_plus it i) i = it
    /\ Iterators.iter_plus (Iterators.iter_minus it i) i = it
    /\ Iterators.iter_sub_assign (Iterators.iter_add_assign it i) i = it
    /\ Iterators.iter_pre_dec (Iterators.iter_pre_inc it) = it
    /\ Iterators.iter_pre_inc (Iterators.iter_pre_dec it) = it
    /\ Nat.iter n Iterators.iter_pre_inc it = Iterators.iter_plus it (Z.of_nat n)
    /\ Iterators.iter_post_inc it = (it, Iterators.iter_plus it 1)
    /\ Iterators.iter_post_dec it = (it, Iterators.iter_minus it 1)
    /\ Iterators.iter_plus_left i it = Iterators.iter_plus it i
    /\ Iterators.iter_diff (Iterators.iter_plus it i) it = Cxx.Ok i
    /\ Iterators.iter_ne it it' = negb (Iterators.iter_eq it it')
    /\ (Iterators.blk (Iterators.ptr_ it) = Iterators.blk (Iterators.ptr_ it') ->
        (Iterators.iter_eq it it' = true <-> Iterators.iter_diff it it' = Cxx.Ok 0)).
Proof.
  intros [[b o]] [[b' o']] i j n.
  assert (forall (p : Iterators.pointer) (x y : Z),
             Iterators.ptr_add (Iterators.ptr_add p x) y = Iterators.ptr_add p (x + y)) as Hadd.
  { intros p x y. apply ptr_add_add. }
  assert (forall (b0 : option nat) (x y : Z), x = y ->
             {| Iterators.ptr_ := {| Iterators.blk := b0; Iterators.off := x |} |}
             = {| Iterators.ptr_ := {| Iterators.blk := b0; Iterators.off := y |} |}) as Heq.
  { intros b0 x y ->. reflexivity. }
  repeat match goal with |- _ /\ _ => split end.
  - unfold Iterators.iter_plus. cbn. by rewrite Hadd.
  - unfold Iterators.iter_minus, Iterators.iter_plus, Iterators.ptr_add. cbn. apply Heq. lia.
  - unfold Iterators.iter_minus, Iterators.iter_plus, Iterators.ptr_add. cbn. apply Heq. lia.
  - unfold Iterators.iter_sub_assign, Iterators.iter_add_assign, Iterators.ptr_add. cbn.
    apply Heq. lia.
  - unfold Iterators.iter_pre_dec, Iterators.iter_pre_inc, Iterators.ptr_add. cbn.
    apply Heq. lia.
  - unfold Iterators.iter_pre_dec, Iterators.iter_pre_inc, Iterators.ptr_add. cbn.
    apply Heq. lia.
  - apply iter_pre_inc_repeat.
  - reflexivity.
  - reflexivity.
  - reflexivity.
  - unfold Iterators.iter_diff, Iterators.iter_plus, Iterators.ptr_diff, Iterators.ptr_add. cbn.
    rewrite decide_True by done. f_equal. lia.
  - reflexivity.
  - intros Hblk. cbn in Hblk. subst b'.
    unfold Iterators.iter_eq, Iterators.iter_diff, Iterators.ptr_diff. cbn.
    rewrite decide_True by done. rewrite bool_decide_eq_true.
    split.
    + intros [= ->]. f_equal. lia.
    + intros [= Ho]. f_equal. lia.
Qed.

(** Two cursors into the first allocation, at positions 2 and 5. *)
Lemma cursor_moves_compose_witness :
  Iterators.iter_eq
    {| Iterators.ptr_ := {| Iterators.blk := Some O; Iterators.off := 2 |} |}
    {| Iterators.ptr_ := {| Iterators.blk := Some O; Iterators.off := 5 |} |} = true
  <-> Iterators.iter_diff
        {| Iterators.ptr_ := {| Iterators.blk := Some O; Iterators.off := 2 |} |}
        {| Iterators.ptr_ := {| Iterators.blk := Some O; Iterators.off := 5 |} |} = Cxx.Ok 0.
Proof.
  pose proof (cursor_moves_compose
                {| Iterators.ptr_ := {| Iterators.blk := Some O; Iterators.off := 2 |} |}
                {| Iterators.ptr_ := {| Iterators.blk := Some O; Iterators.off := 5 |} |}
                0 0 O) as (_ & _ & _ & _ & _ & _ & _ & _ & _ & _ & _ & _ & H).
  apply H. reflexivity.
Defined.

(** ** More on the lookup table *)
Section MapOutcomes.
Import Cxx ConstexprMap.

Lemma find_if_cases {A : Type} (pred : A -> bool) (l : list A) :
  (find_if pred l = length l /\ Forall (fun y => pred y = false) l)
  \/ (exists pre x post,
         l = pre ++ x :: post /\ Forall (fun y => pred y = false) pre /\ pred x = true
         /\ find_if pred l = length pre).
Proof.
  induction l as [|y l IH]; [left; by split|].
  simpl. destruct (pred y) eqn:Hy.
  - right. exists [], y, l. by repeat split.
  - destruct IH as [[Hlen Hall]|(pre & x & post & -> & Hpre & Hx & Hlen)].
    + left. split; [by rewrite Hlen|by constructor].
    + right. exists (y :: pre), x, post. repeat split; [by constructor|done|].
      simpl. by rewrite Hlen.
Qed.

End MapOutcomes.

(** X9. The outcomes of [Map::at], for every table and key.  It returns a
    value exactly when the key occurs in the table, and then the value of
    the first entry with that key; it throws exactly when the key does not
    occur, and then the range error that names the key; the dereference of
    the iterator it returns from is never past the end.  A successful lookup
    is not changed by entries appended to the table. *)
Theorem at_outcomes :
  forall (KeyType ValueType : Type) (Heq : EqDecision KeyType)
         (format_key : KeyType -> string)
         (m : ConstexprMap.Map KeyType ValueType) (key : KeyType),
    (forall f : Cxx.fault, ConstexprMap.at_ format_key m key <> Cxx.Undefined f)
    /\ (forall v : ValueType,
           ConstexprMap.at_ format_key m key = Cxx.Ok v
           <-> exists pre post,
                 ConstexprMap.data_ m = pre ++ (key, v) :: post
                 /\ Forall (fun kv => kv.1 <> key) pre)
    /\ (forall e : Cxx.exn,
           ConstexprMap.at_ format_key m key = Cxx.Throw e
           <-> e = ConstexprMap.not_found format_key key
               /\ Forall (fun kv => kv.1 <> key) (ConstexprMap.data_ m))
    /\ (forall (v : ValueType) (more : list (KeyType * ValueType)),
           ConstexprMap.at_ format_key m key = Cxx.Ok v ->
           ConstexprMap.at_ format_key
             {| ConstexprMap.data_ := ConstexprMap.data_ m ++ more |} key = Cxx.Ok v).
Proof.
  intros KeyType ValueType Heq format_key m key.
  assert ((ConstexprMap.at_ format_key m key
           = Cxx.Throw (ConstexprMap.not_found format_key key)
           /\ Forall (fun kv => kv.1 <> key) (ConstexprMap.data_ m))
          \/ (exists pre v post,
                 ConstexprMap.data_ m = pre ++ (key, v) :: post
                 /\ Forall (fun kv => kv.1 <> key) pre
                 /\ ConstexprMap.at_ format_key m key = Cxx.Ok v)) as Hcases.
  { destruct (find_if_cases (fun kv : KeyType * ValueType => bool_decide (kv.1 = key))
                (ConstexprMap.data_ m))
      as [[_ Hall]|(pre & [k v] & post & Hd & Hpre & Hx & _)].
    - assert (Forall (fun kv => kv.1 <> key) (ConstexprMap.data_ m)) as Hall'.
      { eapply Forall_impl; [exact Hall|]. intros kv Hkv. by apply bool_decide_eq_false in Hkv. }
      left. split; [by apply at_no_match|done].
    - apply bool_decide_eq_true in Hx. simpl in Hx. subst k.
      assert (Forall (fun kv => kv.1 <> key) pre) as Hpre'.
      { eapply Forall_impl; [exact Hpre|]. intros kv Hkv. by apply bool_decide_eq_false in Hkv. }
      right. exists pre, v, post. split; [done|]. split; [done|]. by eapply at_first_match. }
  split; [|split; [|split]].
  - intros f. destruct Hcases as [[-> _]|(pre & v & post & _ & _ & ->)]; discriminate.
  - intros v. split.
    + intros Hok. destruct Hcases as [[Hthrow _]|(pre & v' & post & Hd & Hpre & Hv')];
        [congruence|].
      assert (v' = v) as -> by congruence. by exists pre, post.
    + intros (pre & post & Hd & Hpre). by eapply at_first_match.
  - intros e. split.
    + intros Hthrow. destruct Hcases as [[Hnf Hall]|(pre & v' & post & _ & _ & Hv')];
        [|congruence].
      split; [congruence|done].
    + intros [-> Hall]. by apply at_no_match.
  - intros v more Hok.
    destruct Hcases as [[Hthrow _]|(pre & v' & post & Hd & Hpre & Hv')]; [congruence|].
    assert (v' = v) as -> by congruence.
    apply (at_first_match format_key _ key pre v (post ++ more)); [|done].
    simpl. rewrite Hd. by rewrite <- app_assoc.
Qed.

(** ** The closed form of the sum *)
Section GaussProperties.
Import Cxx Numeric.

Lemma to_int_in_range (z : Z) : INT_MIN <= z <= INT_MAX -> to_int z = z.
Proof. unfold to_int, INT_MIN, INT_MAX. intros Hz. rewrite Z.mod_small; lia. Qed.

Lemma plus_assoc (a b c : Z) : plus a (plus b c) = plus (plus a b) c.
Proof.
  unfold plus, int_add, to_int. f_equal.
  replace (a + ((b + c + 2 ^ 31) mod 2 ^ 32 - 2 ^ 31) + 2 ^ 31)
    with (a + (b + c + 2 ^ 31) mod 2 ^ 32) by lia.
  replace ((a + b + 2 ^ 31) mod 2 ^ 32 - 2 ^ 31 + c + 2 ^ 31)
    with ((a + b + 2 ^ 31) mod 2 ^ 32 + c) by lia.
  rewrite Zplus_mod_idemp_l, Zplus_mod_idemp_r. f_equal. lia.
Qed.

Lemma accumulate_plus_iota (n : nat) :
  forall v acc : Z,
    0 <= v -> 0 <= acc ->
    2 * acc + Z.of_nat n * (2 * v + Z.of_nat n - 1) <= 2 * INT_MAX ->
    2 * accumulate plus (iota n v) acc = 2 * acc + Z.of_nat n * (2 * v + Z.of_nat n - 1).
Proof.
  induction n as [|n IH]; intros v acc Hv Hacc Hbound.
  - simpl. lia.
  - cbn [iota accumulate]. unfold plus at 2. unfold int_add at 2.
    assert (0 <= Z.of_nat n) as Hn by lia.
    rewrite (to_int_in_range (acc + v)) by (unfold INT_MIN, INT_MAX in *; nia).
    destruct n as [|n'].
    + simpl. lia.
    + unfold int_add. rewrite (to_int_in_range (v + 1)) by (unfold INT_MIN, INT_MAX in *; nia).
      rewrite IH by (try lia; nia). nia.
Qed.

End GaussProperties.

(** X10. [sum_gauss] against the sum it is compared with in [main]: for a
    vector filled by [iota] with [n >= 1] consecutive values from
    [first >= 0], [sum_gauss(first, last, 1)] equals the sum computed by
    [accumulate] and by [reduce], provided the product
    [(last - first + 1) * (last + first)], twice the sum, fits in an [int].
    The bound is needed: for the values 1 to 65535 the sum fits in an [int],
    the product does not, and with wrap-around the formula gives -32768. *)
Theorem sum_gauss_equals_sum :
  (forall (first : Z) (n : nat),
      0 <= first -> (1 <= n)%nat ->
      Z.of_nat n * (2 * first + Z.of_nat n - 1) <= Cxx.INT_MAX ->
      Numeric.sum_gauss first (first + Z.of_nat n - 1) 1
      = Numeric.accumulate Numeric.plus (Cxx.iota n first) 0
      /\ Numeric.sum_gauss first (first + Z.of_nat n - 1) 1
         = Numeric.reduce Numeric.plus (Cxx.iota n first) 0
      /\ 2 * Numeric.sum_gauss first (first + Z.of_nat n - 1) 1
         = Z.of_nat n * (2 * first + Z.of_nat n - 1))
  /\ Numeric.accumulate Numeric.plus (Cxx.iota (Z.to_nat 65535) 1) 0 = 2147450880
  /\ Numeric.sum_gauss 1 65535 1 = -32768.
Proof.
  split; [|split; vm_compute; reflexivity].
  intros first n Hfirst Hn Hbound.
  pose proof (accumulate_plus_iota n first 0 Hfirst ltac:(lia)
                ltac:(unfold Cxx.INT_MAX in *; lia)) as Hsum.
  set (S := Numeric.accumulate Numeric.plus (Cxx.iota n first) 0) in *.
  assert (Numeric.sum_gauss first (first + Z.of_nat n - 1) 1 = S) as Hgauss.
  { unfold Numeric.sum_gauss, Cxx.int_sub, Cxx.int_add, Cxx.int_mul, Cxx.int_div.
    replace (first + Z.of_nat n - 1 - first) with (Z.of_nat n - 1) by lia.
    rewrite (to_int_in_range (Z.of_nat n - 1)) by (unfold Cxx.INT_MIN, Cxx.INT_MAX in *; nia).
    replace (Z.of_nat n - 1 + 1) with (Z.of_nat n) by lia.
    rewrite (to_int_in_range (Z.of_nat n)) by (unfold Cxx.INT_MIN, Cxx.INT_MAX in *; nia).
    rewrite Z.quot_1_r.
    rewrite (to_int_in_range (Z.of_nat n)) by (unfold Cxx.INT_MIN, Cxx.INT_MAX in *; nia).
    replace (first + Z.of_nat n - 1 + first) with (2 * first + Z.of_nat n - 1) by lia.
    rewrite (to_int_in_range (2 * first + Z.of_nat n - 1))
      by (unfold Cxx.INT_MIN, Cxx.INT_MAX in *; nia).
    rewrite (to_int_in_range (Z.of_nat n * _))
      by (unfold Cxx.INT_MIN, Cxx.INT_MAX in *; nia).
    replace (Z.of_nat n * (2 * first + Z.of_nat n - 1)) with (S * 2) by lia.
    rewrite Z.quot_mul by done.
    apply to_int_in_range. unfold Cxx.INT_MIN, Cxx.INT_MAX in *. nia. }
  split; [done|]. split; [|lia].
  rewrite Hgauss. unfold S. symmetry. apply reduce_accumulate.
  apply plus_assoc.
Qed.

(** The vector of [main]: five values from 1. *)
Lemma sum_gauss_equals_sum_witness :
  Numeric.sum_gauss 1 (1 + Z.of_nat 5 - 1) 1
  = Numeric.accumulate Numeric.plus (Cxx.iota 5 1) 0.
Proof.
  apply (proj1 sum_gauss_equals_sum 1 5%nat); [lia|lia|vm_compute; discriminate].
Defined.

(** The table of [main] with an entry for blue appended. *)
Lemma at_outcomes_witness :
  ConstexprMap.at_ ConstexprMap.format_string
    {| ConstexprMap.data_ := ConstexprMap.data_ ConstexprMap.map ++ [("blue"%string, 7)] |}
    "blue"
  = Cxx.Ok 2.
Proof.
  destruct (at_outcomes string Z _ ConstexprMap.format_string ConstexprMap.map "blue"%string)
    as (_ & _ & _ & Hmore).
  apply Hmore. vm_compute. reflexivity.
Defined.

(** ** Counting the calls of the special member functions *)
Section TallyProperties.
Import Cxx TemporaryObjects.

Lemma int_add_1 (v : Z) : 0 <= v < INT_MAX -> int_add v 1 = v + 1.
Proof.
  unfold int_add, to_int, INT_MAX. intros Hv. rewrite Z.mod_small; lia.
Qed.

Ltac tally_case :=
  unfold table, entry, count;
  cbn [constructors copy_assignments copy_constructors destructors
       move_assignments move_constructors];
  repeat case_bool_decide; try lia; subst;
  cbn [app increment String.compare Ascii.compare];
  simpl;
  rewrite ?int_add_1 by lia;
  reflexivity.

Lemma increment_table (t : tally) (f : member) (key : string) :
  key_of f = Some key -> countable t ->
  increment key (table t) = table (count t f).
Proof.
  intros Hkey (Ha & Hb & Hc & Hd & He & Hg).
  destruct t as [a b c d e g].
  cbn [constructors copy_assignments copy_constructors destructors
       move_assignments move_constructors] in *.
  destruct f; inversion Hkey; subst key; tally_case.
Qed.

Lemma count_total (t : tally) (f : member) :
  is_Some (key_of f) -> total (count t f) = total t + 1.
Proof. intros [key Hkey]. destruct f; try discriminate; unfold total; simpl; lia. Qed.

Lemma count_nonneg (t : tally) (f : member) :
  (0 <= constructors t /\ 0 <= copy_assignments t /\ 0 <= copy_constructors t
   /\ 0 <= destructors t /\ 0 <= move_assignments t /\ 0 <= move_constructors t) ->
  (0 <= constructors (count t f) /\ 0 <= copy_assignments (count t f)
   /\ 0 <= copy_constructors (count t f) /\ 0 <= destructors (count t f)
   /\ 0 <= move_assignments (count t f) /\ 0 <= move_constructors (count t f)).
Proof. intros H. destruct f; simpl; lia. Qed.

Lemma calls_table (fs : list member) :
  Forall (fun f => is_Some (key_of f)) fs ->
  forall (t : tally) (out : list string),
    (0 <= constructors t /\ 0 <= copy_assignments t /\ 0 <= copy_constructors t
     /\ 0 <= destructors t /\ 0 <= move_assignments t /\ 0 <= move_constructors t) ->
    total t + Z.of_nat (length fs) <= INT_MAX ->
    n_calls_map (calls {| n_calls_map := table t; output := out |} fs)
    = table (fold_left count fs t)
    /\ output (calls {| n_calls_map := table t; output := out |} fs)
       = out ++ concat (line_of <$> fs)
    /\ total (fold_left count fs t) = total t + Z.of_nat (length fs).
Proof.
  induction 1 as [|f fs Hf _ IH]; intros t out Hpos Hbound.
  - simpl. rewrite app_nil_r. repeat split. lia.
  - destruct Hf as [key Hkey].
    assert (call {| n_calls_map := table t; output := out |} f
            = {| n_calls_map := table (count t f); output := out ++ line_of f |}) as Hcall.
    { assert (countable t) as Hc.
      { unfold countable. unfold total in Hbound. simpl length in Hbound. lia. }
      pose proof (increment_table t f key Hkey Hc) as Hinc.
      destruct f; try discriminate; simpl in Hkey; inversion Hkey; subst key;
        unfold call; cbn [key_of n_calls_map output]; rewrite Hinc; reflexivity. }
    unfold calls in *. cbn [fold_left]. rewrite Hcall.
    destruct (IH (count t f) (out ++ line_of f)) as (Hmap & Hout & Htot).
    + by apply count_nonneg.
    + rewrite count_total by (by eexists). simpl length in Hbound. lia.
    + split; [done|]. split.
      * rewrite Hout. cbn [fmap list_fmap concat]. by rewrite <- app_assoc.
      * rewrite Htot, count_total by (by eexists). simpl length. lia.
Qed.

End TallyProperties.

(** X11. The counters of [Moveable]: after [reset_n_calls], whatever special
    member functions are called and in whatever order, the map holds under
    each key the number of calls of that function, has no entry for a
    function never called, and the numbers add up to the number of calls;
    every call has written its line.  [print_n_calls] then writes one line
    per function called, in the order of the keys.  The output of [main]
    follows: two copy constructions in the first block, two move
    constructions instead in the second, neither in the third. *)
Theorem calls_are_counted :
  (forall (fs : list TemporaryObjects.member) (out : list string),
      Forall (fun f => is_Some (TemporaryObjects.key_of f)) fs ->
      Z.of_nat (length fs) <= Cxx.INT_MAX ->
      TemporaryObjects.n_calls_map
        (TemporaryObjects.calls
           {| TemporaryObjects.n_calls_map := []; TemporaryObjects.output := out |} fs)
      = TemporaryObjects.table (fold_left TemporaryObjects.count fs TemporaryObjects.no_calls)
      /\ TemporaryObjects.total (fold_left TemporaryObjects.count fs TemporaryObjects.no_calls)
         = Z.of_nat (length fs)
      /\ TemporaryObjects.output
           (TemporaryObjects.calls
              {| TemporaryObjects.n_calls_map := []; TemporaryObjects.output := out |}
              (fs ++ [TemporaryObjects.print_n_calls]))
         = out ++ concat (TemporaryObjects.line_of <$> fs)
               ++ TemporaryObjects.report
                    (TemporaryObjects.table
                       (fold_left TemporaryObjects.count fs TemporaryObjects.no_calls)))
  /\ TemporaryObjects.output TemporaryObjects.main
     = ["Moveable();"; "Moveable();"; "Moveable(const Moveable&);";
        "Moveable(const Moveable&);"; "~Moveable();"; "~Moveable();";
        "~Moveable();"; "~Moveable();"; "Constructor: 2";
        "Copy constructor: 2"; "Destructor: 4"; "Moveable();"; "Moveable();";
        "Moveable(Moveable &&);"; "Moveable(Moveable &&);"; "~Moveable();";
        "~Moveable();"; "~Moveable();"; "~Moveable();"; "Constructor: 2";
        "Destructor: 4"; "Move constructor: 2"; "Moveable();"; "Moveable();";
        "~Moveable();"; "~Moveable();"; "Constructor: 2"; "Destructor: 2"].
Proof.
  split; [|vm_compute; reflexivity].
  intros fs out Hfs Hlen.
  destruct (calls_table fs Hfs TemporaryObjects.no_calls out) as (Hmap & Hout & Htot).
  { simpl. lia. }
  { unfold TemporaryObjects.total. simpl. lia. }
  change (TemporaryObjects.table TemporaryObjects.no_calls) with (@nil (string * Z)) in *.
  split; [exact Hmap|]. split.
  - rewrite Htot. unfold TemporaryObjects.total. simpl. lia.
  - unfold TemporaryObjects.calls in *. rewrite fold_left_app. cbn [fold_left].
    unfold TemporaryObjects.call at 1. cbn [TemporaryObjects.output TemporaryObjects.n_calls_map].
    rewrite Hmap, Hout. by rewrite <- app_assoc.
Qed.

(** A run with an assignment of each kind between two constructions. *)
Lemma calls_are_counted_witness :
  TemporaryObjects.n_calls_map
    (TemporaryObjects.calls
       {| TemporaryObjects.n_calls_map := []; TemporaryObjects.output := [] |}
       [TemporaryObjects.Constructor 1; TemporaryObjects.MoveAssignment;
        TemporaryObjects.Constructor 2; TemporaryObjects.CopyAssignment;
        TemporaryObjects.Destructor; TemporaryObjects.Destructor])
  = [("Constructor"%string, 2); ("Copy assignment"%string, 1); ("Destructor"%string, 2);
     ("Move assignement"%string, 1)].
Proof.
  apply (proj1 (proj1 calls_are_counted
                  [TemporaryObjects.Constructor 1; TemporaryObjects.MoveAssignment;
                   TemporaryObjects.Constructor 2; TemporaryObjects.CopyAssignment;
                   TemporaryObjects.Destructor; TemporaryObjects.Destructor] []
                  ltac:(repeat constructor; by eexists)
                  ltac:(vm_compute; discriminate))).
Defined.

(** ** Inner products *)
Section TwoRangeProperties.
Import Cxx Numeric.
Context {T : Type}.
Variables op1 op2 : T -> T -> T.
Hypothesis op1_assoc : forall a b c, op1 a (op1 b c) = op1 (op1 a b) c.

Lemma inner_product_short (l1 l2 : list T) (init : T) :
  (length l2 < length l1)%nat -> inner_product op1 op2 l1 l2 init = Undefined OutOfBounds.
Proof.
  revert l2 init. induction l1 as [|x l1 IH]; intros l2 init Hlen; simpl in *; [lia|].
  destruct l2 as [|y l2]; [done|]. apply IH. simpl in Hlen. lia.
Qed.

Lemma transform_reduce_bounded (n : nat) :
  forall (l1 l2 : list T) (init : T),
    (length l1 <= n)%nat ->
    transform_reduce op1 op2 l1 l2 init = inner_product op1 op2 l1 l2 init.
Proof.
  induction n as [|n IH]; intros l1 l2 init Hn.
  - destruct l1; [done|simpl in Hn; lia].
  - destruct l1 as [|x0 [|x1 [|x2 [|x3 l1]]]]; try reflexivity.
    destruct l2 as [|y0 [|y1 [|y2 [|y3 l2]]]];
      try (symmetry; apply inner_product_short; simpl; lia).
    simpl in Hn. cbn [transform_reduce inner_product]. rewrite IH by lia.
    f_equal. by rewrite !op1_assoc.
Qed.

End TwoRangeProperties.

(** X12. For an associative first operation, [transform_reduce] returns what
    [inner_product] returns on every pair of sequences and from every
    initial value, also when the second sequence is too short and both are
    undefined; a second sequence at least as long as the first makes both
    defined.  On [1,2,3,4,5] and five times -1, with addition and
    multiplication from 0, both are -15. *)
Theorem transform_reduce_equals_inner_product :
  (forall (T : Type) (op1 op2 : T -> T -> T),
      (forall a b c, op1 a (op1 b c) = op1 (op1 a b) c) ->
      forall (l1 l2 : list T) (init : T),
        Numeric.transform_reduce op1 op2 l1 l2 init = Numeric.inner_product op1 op2 l1 l2 init
        /\ ((length l1 <= length l2)%nat ->
            exists r : T, Numeric.inner_product op1 op2 l1 l2 init = Cxx.Ok r)
        /\ ((length l2 < length l1)%nat ->
            Numeric.inner_product op1 op2 l1 l2 init = Cxx.Undefined Cxx.OutOfBounds))
  /\ Numeric.v2 = [-1; -1; -1; -1; -1]
  /\ Numeric.prod1 = Cxx.Ok (-15)
  /\ Numeric.prod2 = Numeric.prod1.
Proof.
  split; [|repeat split; vm_compute; reflexivity].
  intros T op1 op2 Hassoc l1 l2 init. split; [|split].
  - by apply (transform_reduce_bounded op1 op2 Hassoc (length l1)).
  - revert l2 init. induction l1 as [|x l1 IH]; intros l2 init Hlen; [by eexists|].
    destruct l2 as [|y l2]; [simpl in Hlen; lia|].
    simpl. apply IH. simpl in Hlen. lia.
  - by apply inner_product_short.
Qed.

(** Addition and multiplication of integers on six pairs. *)
Lemma transform_reduce_equals_inner_product_witness :
  Numeric.transform_reduce Z.add Z.mul [1; 2; 3; 4; 5; 6] [6; 5; 4; 3; 2; 1] 0
  = Numeric.inner_product Z.add Z.mul [1; 2; 3; 4; 5; 6] [6; 5; 4; 3; 2; 1] 0.
Proof.
  apply (proj1 transform_reduce_equals_inner_product Z Z.add Z.mul).
  intros a b c. lia.
Defined.

(** ** The remove-erase idiom *)
Section RemoveEraseProperties.
Import Cxx Algorithm.

Lemma iota_seqZ (n : nat) :
  forall v : Z, INT_MIN <= v -> v + Z.of_nat n <= INT_MAX + 1 -> iota n v = seqZ v (Z.of_nat n).
Proof.
  induction n as [|n IH]; intros v Hmin Hmax; [done|].
  cbn [iota]. rewrite seqZ_cons by lia. f_equal.
  replace (Z.pred (Z.of_nat (S n))) with (Z.of_nat n) by lia.
  destruct n as [|n']; [done|].
  unfold int_add. rewrite to_int_in_range by (unfold INT_MIN, INT_MAX in *; lia).
  replace (Z.succ v) with (v + 1) by lia.
  apply IH; unfold INT_MIN, INT_MAX in *; lia.
Qed.

Lemma is_even_false_iff (e : Z) : to_bool (is_even e) = false <-> Z.even e = true.
Proof.
  unfold to_bool, is_even, int_rem. rewrite negb_false_iff, bool_decide_eq_true.
  rewrite Z.even_spec. rewrite Z.rem_divide by done.
  split; intros [k ->]; exists k; lia.
Qed.

End RemoveEraseProperties.

(** X13. [remove_erase()] for vectors of any size [n]: the remove-erase
    idiom on [v1] and [std::erase_if] on [v2] give the same vector, so the
    assertion holds, and that vector holds the even values of [1 .. n] in
    increasing order: the predicate named [is_even] returns [e % 2], which
    is true of the odd values, and these are the ones removed. *)
Theorem remove_erase_keeps_even_values :
  forall n : nat,
    Z.of_nat n <= Cxx.INT_MAX ->
    (Algorithm.remove_erase n).1 = (Algorithm.remove_erase n).2
    /\ (Algorithm.remove_erase n).1 = filter (fun e => Z.even e = true) (seqZ 1 (Z.of_nat n))
    /\ Forall (fun e => Algorithm.to_bool (Algorithm.is_even e) = false)
              (Algorithm.remove_erase n).1
    /\ (forall e : Z, 1 <= e <= Z.of_nat n -> Z.even e = true ->
                      e ∈ (Algorithm.remove_erase n).1).
Proof.
  intros n Hn.
  assert ((Algorithm.remove_erase n).1
          = filter (fun e => Algorithm.to_bool (Algorithm.is_even e) = false) (Cxx.iota n 1))
    as H1.
  { unfold Algorithm.remove_erase, Algorithm.std_remove_if, Algorithm.erase_to_end. cbn.
    apply take_app_length. }
  assert ((Algorithm.remove_erase n).2
          = filter (fun e => Algorithm.to_bool (Algorithm.is_even e) = false) (Cxx.iota n 1))
    as H2.
  { unfold Algorithm.remove_erase, Algorithm.std_erase_if, Algorithm.std_remove_if,
      Algorithm.erase_to_end. cbn. apply take_app_length. }
  assert ((Algorithm.remove_erase n).1
          = filter (fun e => Z.even e = true) (seqZ 1 (Z.of_nat n))) as H3.
  { rewrite H1, iota_seqZ by (unfold Cxx.INT_MIN, Cxx.INT_MAX in *; lia).
    apply list_filter_iff. intros e. apply is_even_false_iff. }
  split; [by rewrite H1, H2|]. split; [exact H3|]. split.
  - rewrite H1. apply Forall_forall. intros e He.
    by apply list_elem_of_filter in He as [He _].
  - intros e He Heven. rewrite H3. apply list_elem_of_filter. split; [done|].
    apply elem_of_seqZ. lia.
Qed.

(** The vectors of [remove_erase()], of size 10. *)
Lemma remove_erase_keeps_even_values_witness :
  (Algorithm.remove_erase 10).1 = [2; 4; 6; 8; 10]
  /\ (Algorithm.remove_erase 10).2 = [2; 4; 6; 8; 10].
Proof.
  destruct (remove_erase_keeps_even_values 10 ltac:(vm_compute; discriminate))
    as (Heq & Hevens & _).
  split; [rewrite Hevens|rewrite <- Heq, Hevens]; vm_compute; reflexivity.
Defined.

(** ** [main] of the container *)
Section MainProperties.
Import Cxx Iterators.

Implicit Types (s : state Z) (cs : list (cell Z)) (xs ys : list Z).

Lemma store_cell_block (l : nat) cs (i : nat) (c : cell Z) s :
  blocks (mem s) !! l = Some cs -> (i < length cs)%nat ->
  store_cell {| blk := Some l; off := Z.of_nat i |} c s
  = Ok (tt, with_blocks s (<[l := <[i := c]> cs]> (blocks (mem s)))).
Proof.
  intros Hl Hi. unfold store_cell, write_range. rewrite decide_False by done.
  unfold bind, get_mem. simpl. rewrite Hl.
  rewrite bool_decide_eq_true_2 by (simpl; lia).
  unfold set_mem, with_blocks. simpl. rewrite Nat2Z.id.
  do 4 f_equal.
  rewrite insert_take_drop by done. simpl. by rewrite Nat.add_1_r.
Qed.

(** Overwriting position [k] of a block whose first [k] elements are
    already those of [ys]. *)
Lemma overwrite_step cs ys (k : nat) (y : Z) :
  (k < length cs)%nat -> ys !! k = Some y ->
  <[k := Some y]> ((Some <$> take k ys) ++ drop k cs)
  = (Some <$> take (S k) ys) ++ drop (S k) cs.
Proof.
  intros Hk Hy. destruct (lookup_lt_is_Some_2 cs k Hk) as [c Hc].
  pose proof (lookup_lt_Some _ _ _ Hy) as Hlt.
  rewrite insert_app_r_alt by (rewrite length_fmap, length_take; lia).
  rewrite length_fmap, length_take, Nat.min_l, Nat.sub_diag by lia.
  rewrite (drop_S cs c k Hc). cbn [insert list_insert].
  rewrite (take_S_r ys k y Hy), fmap_app, <- app_assoc. reflexivity.
Qed.

Lemma overwrite_start s (l : nat) cs ys :
  blocks (mem s) !! l = Some cs ->
  s = with_blocks s (<[l := (Some <$> take O ys) ++ drop O cs]> (blocks (mem s))).
Proof.
  intros Hl. cbn [take fmap list_fmap app]. rewrite drop_0, insert_id by done.
  by rewrite with_blocks_id.
Qed.

Lemma overwrite_end cs ys :
  length ys = length cs -> (Some <$> take (length cs) ys) ++ drop (length cs) cs = Some <$> ys.
Proof.
  intros Hlen. rewrite drop_all, app_nil_r, <- Hlen. by rewrite firstn_all.
Qed.

Lemma with_blocks_twice s (l : nat) cs1 cs2 :
  with_blocks (with_blocks s (<[l := cs1]> (blocks (mem s))))
              (<[l := cs2]> (blocks (mem (with_blocks s (<[l := cs1]> (blocks (mem s)))))))
  = with_blocks s (<[l := cs2]> (blocks (mem s))).
Proof.
  unfold with_blocks. cbn [objs mem blocks next_block released].
  by rewrite insert_insert_eq.
Qed.

(** [std::ranges::iota] through the cursors fills the array with the
    values from [v0] on. *)
Lemma ranges_iota_block (l n : nat) cs s (fuel : nat) (v0 : Z) :
  blocks (mem s) !! l = Some cs -> length cs = n -> (n <= fuel)%nat ->
  0 <= v0 -> v0 + Z.of_nat n <= INT_MAX ->
  ranges_iota fuel {| size_ := Z.of_nat n; values_ := {| blk := Some l; off := 0 |} |} v0 s
  = Ok (Some (v0 + Z.of_nat n),
        with_blocks s (<[l := Some <$> seqZ v0 (Z.of_nat n)]> (blocks (mem s)))).
Proof.
  intros Hl <- Hfuel Hv0 Hmax.
  set (ys := seqZ v0 (Z.of_nat (length cs))).
  assert (length ys = length cs) as Hys by (unfold ys; rewrite length_seqZ; lia).
  unfold ranges_iota, begin_, end_, ptr_add. cbn [values_ size_ blk off].
  destruct (for_loop_rule
              (fun k value s' =>
                 value = v0 + Z.of_nat k
                 /\ s' = with_blocks s (<[l := (Some <$> take k ys) ++ drop k cs]>
                                          (blocks (mem s))))
              (fun p value => bind (store p (to_uint value)) (fun _ => ret (int_add value 1)))
              (Some l) 0 (length cs)) with (m := length cs) (k := O) (fuel := fuel)
              (acc := v0) (s := s)
    as (value & s' & Hrun & -> & ->); [|done..| |].
  - intros k value s' Hk [-> ->].
    assert (ys !! k = Some (v0 + Z.of_nat k)) as Hy
      by (unfold ys; apply lookup_seqZ_lt; lia).
    assert (to_uint (v0 + Z.of_nat k) = v0 + Z.of_nat k) as Hu
      by (unfold to_uint; unfold INT_MAX in Hmax; apply Z.mod_small; lia).
    assert (int_add (v0 + Z.of_nat k) 1 = v0 + Z.of_nat (S k)) as Hi.
    { unfold int_add. rewrite to_int_in_range; unfold INT_MIN, INT_MAX in *; lia. }
    exists (v0 + Z.of_nat (S k)). eexists. split.
    + rewrite Z.add_0_l. unfold bind. erewrite store_owned.
      * unfold ret. rewrite Hi, Hu. reflexivity.
      * unfold with_blocks. cbn [mem blocks]. by rewrite lookup_insert_eq.
      * rewrite length_app, length_fmap, length_take, length_drop. unfold cell in *. lia.
    + split; [done|]. rewrite with_blocks_twice. by rewrite (overwrite_step cs ys k _ Hk Hy).
  - split; [lia|]. by apply overwrite_start.
  - change (0 + Z.of_nat 0) with 0 in Hrun. rewrite Hrun.
    by rewrite overwrite_end.
Qed.

(** [std::ranges::fill] through the cursors. *)
Lemma ranges_fill_block (l n : nat) cs s (fuel : nat) (v : Z) :
  blocks (mem s) !! l = Some cs -> length cs = n -> (n <= fuel)%nat ->
  ranges_fill fuel {| size_ := Z.of_nat n; values_ := {| blk := Some l; off := 0 |} |} v s
  = Ok (Some tt,
        with_blocks s (<[l := Some <$> replicate n (to_uint v)]> (blocks (mem s)))).
Proof.
  intros Hl <- Hfuel.
  set (ys := replicate (length cs) (to_uint v)).
  assert (length ys = length cs) as Hys by (unfold ys; by rewrite length_replicate).
  unfold ranges_fill, write_all, begin_, end_, ptr_add. cbn [values_ size_ blk off].
  destruct (for_loop_rule
              (fun k (_ : unit) s' =>
                 s' = with_blocks s (<[l := (Some <$> take k ys) ++ drop k cs]>
                                       (blocks (mem s))))
              (fun p _ => store p (to_uint v))
              (Some l) 0 (length cs)) with (m := length cs) (k := O) (fuel := fuel)
              (acc := tt) (s := s)
    as ([] & s' & Hrun & ->); [|done..| |].
  - intros k [] s' Hk ->.
    assert (ys !! k = Some (to_uint v)) as Hy
      by (unfold ys; by apply lookup_replicate_2).
    exists tt. eexists. split.
    + rewrite Z.add_0_l. erewrite store_owned.
      * reflexivity.
      * unfold with_blocks. cbn [mem blocks]. by rewrite lookup_insert_eq.
      * rewrite length_app, length_fmap, length_take, length_drop. unfold cell in *. lia.
    + rewrite with_blocks_twice. by rewrite (overwrite_step cs ys k _ Hk Hy).
  - by apply overwrite_start.
  - change (0 + Z.of_nat 0) with 0 in Hrun. rewrite Hrun.
    by rewrite overwrite_end.
Qed.

Section Scan.
Context {A : Type}.
Variable op : A -> A -> A.

Lemma inclusive_scan_init_step (l : list A) (init : A) (k : nat) (a x : A) :
  (init :: Numeric.inclusive_scan_init op l init) !! k = Some a -> l !! k = Some x ->
  Numeric.inclusive_scan_init op l init !! k = Some (op a x).
Proof.
  revert init k. induction l as [|y l IH]; intros init k Ha Hx; [done|].
  destruct k as [|k]; simpl in *.
  - by inversion Ha; inversion Hx.
  - by apply IH.
Qed.

Lemma inclusive_scan_length (l : list A) :
  length (Numeric.inclusive_scan op l) = length l.
Proof. destruct l; simpl; [done|]. by rewrite inclusive_scan_init_length. Qed.

End Scan.

(** [std::inclusive_scan] through the cursors, the result written over the
    input: the array ends up holding the prefix sums of what it held. *)
Lemma inclusive_scan_in_place (l n : nat) xs s (fuel : nat) :
  blocks (mem s) !! l = Some (Some <$> xs) -> length xs = n -> (n <= fuel)%nat ->
  exists r : iterator,
    inclusive_scan fuel
      (begin_ {| size_ := Z.of_nat n; values_ := {| blk := Some l; off := 0 |} |})
      (end_ {| size_ := Z.of_nat n; values_ := {| blk := Some l; off := 0 |} |})
      (begin_ {| size_ := Z.of_nat n; values_ := {| blk := Some l; off := 0 |} |}) s
    = Ok (Some r,
          with_blocks s (<[l := Some <$> Numeric.inclusive_scan uint_add xs]> (blocks (mem s)))).
Proof.
  intros Hl <- Hfuel.
  unfold inclusive_scan, begin_, end_, ptr_add. cbn [values_ size_ blk off].
  destruct xs as [|x0 rest].
  { eexists. unfold iter_ne. cbn [ptr_]. rewrite bool_decide_eq_true_2 by done.
    cbn [negb]. unfold ret. simpl. rewrite insert_id by done. by rewrite with_blocks_id. }
  unfold iter_ne at 1. cbn [ptr_]. rewrite bool_decide_eq_false_2 by (intros [= Heq]; simpl in Heq; lia).
  cbn [negb]. unfold iter_deref. cbn [ptr_].
  pose proof (load_owned l (Some <$> x0 :: rest) O (Some x0) s Hl eq_refl) as Hload.
  pose proof (store_cell_block l (Some <$> x0 :: rest) O (Some x0) s Hl ltac:(simpl; lia))
    as Hstore.
  change (Z.of_nat O) with 0 in Hload, Hstore.
  assert (store_cell {| blk := Some l; off := 0 |} (Some x0) s = Ok (tt, s)) as Hstore'.
  { rewrite Hstore. do 2 f_equal. simpl. rewrite insert_id by done. by rewrite with_blocks_id. }
  unfold bind at 1. rewrite Hload. unfold bind at 1. rewrite Hstore'.
  clear Hload Hstore Hstore'.
  cbv zeta. unfold iter_post_inc, iter_pre_inc, ptr_add. cbn [ptr_ blk off snd].
  set (cs := Some <$> x0 :: rest) in *.
  set (ys := Numeric.inclusive_scan uint_add (x0 :: rest)).
  assert (length ys = length cs) as Hys
    by (unfold ys, cs; by rewrite inclusive_scan_length, length_fmap).
  assert (length cs = S (length rest)) as Hcs by (unfold cs; by rewrite length_fmap).
  replace (0 + 1) with (1 + Z.of_nat O) by done.
  replace (0 + Z.of_nat (length (x0 :: rest))) with (1 + Z.of_nat (length rest))
    by (cbn [length]; lia).
  destruct (for_loop_rule
              (fun k (acc : iterator * cell Z) s' =>
                 acc.1 = {| ptr_ := {| blk := Some l; off := 1 + Z.of_nat k |} |}
                 /\ (exists a : Z, ys !! k = Some a /\ acc.2 = Some a)
                 /\ s' = with_blocks s (<[l := (Some <$> take (S k) ys) ++ drop (S k) cs]>
                                          (blocks (mem s))))
              scan_step (Some l) 1 (length rest)) with (m := length rest) (k := O) (fuel := fuel)
              (acc := (@pair iterator (cell Z)
                         {| ptr_ := {| blk := Some l; off := 1 + Z.of_nat O |} |} (Some x0)))
              (s := s)
    as ([r init] & s' & Hrun & _ & _ & ->); [|done|simpl in Hfuel; lia| |].
  - intros k [r init] s' Hk (Hr & (a & Ha & Hinit) & ->). cbn [fst snd] in Hr, Hinit.
    subst r init.
    destruct (lookup_lt_is_Some_2 rest k Hk) as [x Hx].
    assert (ys !! S k = Some (uint_add a x)) as Hy.
    { unfold ys. cbn [Numeric.inclusive_scan lookup list_lookup].
      by apply inclusive_scan_init_step. }
    exists ({| ptr_ := {| blk := Some l; off := 1 + Z.of_nat (S k) |} |}, Some (uint_add a x)).
    eexists. split.
    + unfold scan_step. cbn [fst snd]. unfold iter_deref, iter_post_inc, iter_pre_inc, ptr_add.
      cbn [ptr_ blk off snd].
      replace (1 + Z.of_nat k) with (Z.of_nat (S k)) by lia.
      unfold bind at 1. erewrite load_owned; cycle 1.
      * unfold with_blocks. cbn [mem blocks]. by rewrite lookup_insert_eq.
      * rewrite lookup_app_r by (rewrite length_fmap, length_take; lia).
        rewrite length_fmap, length_take, Nat.min_l by lia.
        rewrite Nat.sub_diag, lookup_drop, Nat.add_0_r.
        unfold cs. rewrite list_lookup_fmap.
        change ((x0 :: rest) !! S k) with (rest !! k). by rewrite Hx.
      * unfold bind at 1. erewrite store_cell_block; cycle 1.
        -- unfold with_blocks. cbn [mem blocks]. by rewrite lookup_insert_eq.
        -- rewrite length_app, length_fmap, length_take, length_drop. unfold cell in *. lia.
        -- unfold ret. cbn [cell_plus].
           replace (Z.of_nat (S k) + 1) with (1 + Z.of_nat (S k)) by lia. reflexivity.
    + cbn [fst snd]. split; [done|]. split; [by exists (uint_add a x)|].
      rewrite with_blocks_twice.
      do 2 f_equal. apply overwrite_step; [|done]. unfold cell in *. lia.
  - cbn [fst snd]. split; [done|]. split; [by exists x0|].
    simpl. rewrite drop_0. rewrite insert_id by done. by rewrite with_blocks_id.
  - exists (if iter_ne {| ptr_ := {| blk := Some l; off := 1 + Z.of_nat O |} |}
                       {| ptr_ := {| blk := Some l; off := 1 + Z.of_nat (length rest) |} |}
            then r else {| ptr_ := {| blk := Some l; off := 1 + Z.of_nat O |} |}).
    assert ((Some <$> take (S (length rest)) ys) ++ drop (S (length rest)) cs = Some <$> ys)
      as Hend by (rewrite <- Hcs; by apply overwrite_end).
    rewrite Hend in Hrun.
    destruct (iter_ne _ _) eqn:Hne.
    + unfold bind. rewrite Hrun. reflexivity.
    + assert (for_loop fuel {| ptr_ := {| blk := Some l; off := 1 + Z.of_nat O |} |}
                {| ptr_ := {| blk := Some l; off := 1 + Z.of_nat (length rest) |} |}
                scan_step
                (@pair iterator (cell Z)
                   {| ptr_ := {| blk := Some l; off := 1 + Z.of_nat O |} |} (Some x0)) s
              = Ok (Some (@pair iterator (cell Z)
                            {| ptr_ := {| blk := Some l; off := 1 + Z.of_nat O |} |} (Some x0)),
                    s)) as Hstop
        by (destruct fuel; cbn [for_loop]; by rewrite Hne).
      rewrite Hstop in Hrun. unfold ret. do 2 f_equal. congruence.
Qed.

(** The prefix sums of [n] ones are the numbers from 1 to [n]. *)
Lemma inclusive_scan_init_ones (m : nat) (v : Z) :
  0 <= v -> v + Z.of_nat m < 2 ^ 32 ->
  Numeric.inclusive_scan_init uint_add (replicate m 1) v = seqZ (v + 1) (Z.of_nat m).
Proof.
  revert v. induction m as [|m IH]; intros v Hv Hmax; [done|].
  cbn [replicate Numeric.inclusive_scan_init].
  assert (uint_add v 1 = v + 1) as -> by (unfold uint_add, to_uint; apply Z.mod_small; lia).
  rewrite IH by lia. rewrite (seqZ_cons (v + 1) (Z.of_nat (S m))) by lia.
  f_equal. f_equal; lia.
Qed.

Lemma inclusive_scan_ones (n : nat) :
  Z.of_nat n < 2 ^ 32 ->
  Numeric.inclusive_scan uint_add (replicate n 1) = seqZ 1 (Z.of_nat n).
Proof.
  intros Hn. destruct n as [|m]; [done|].
  cbn [replicate Numeric.inclusive_scan].
  rewrite inclusive_scan_init_ones by lia.
  rewrite (seqZ_cons 1 (Z.of_nat (S m))) by lia. f_equal. f_equal; lia.
Qed.

Lemma pair_lines_same xs :
  pair_lines (Some <$> xs) (Some <$> xs)
  = Some ((fun e => (pretty e ++ " " ++ pretty e)%string) <$> xs).
Proof.
  induction xs as [|x xs IH]; [done|].
  rewrite !fmap_cons. cbn [pair_lines pair_line]. by rewrite IH.
Qed.

Lemma block_owned (l n : nat) cs s :
  blocks (mem s) !! l = Some cs -> length cs = n -> Z.of_nat n <= PTRDIFF_MAX ->
  owns (mem s) {| size_ := Z.of_nat n; values_ := {| blk := Some l; off := 0 |} |} cs.
Proof.
  intros Hl <- Hmax. split; [done|]. split; [done|]. right. by exists l.
Qed.

End MainProperties.

Ltac state_fields :=
  cbn [Iterators.mem Iterators.next_block Iterators.blocks Iterators.released Iterators.objs].

Ltac block_lookup :=
  state_fields;
  first [by rewrite lookup_insert_eq
        |by rewrite lookup_insert_ne, lookup_insert_eq by done].

(** X14. [main] with arrays of [N] elements, [N] below [INT_MAX] and the
    loops given [N] steps: [std::ranges::iota] leaves 1, ..., [N] in
    [dyn_arr_1]; [std::ranges::fill] and the scan of [dyn_arr_2] over
    itself leave the same values in [dyn_arr_2]; so [main] prints that the
    arrays are equal, then the [N] lines [k k]; and when it returns both
    objects are gone, no allocation is live and each of the two has been
    released once, that of [dyn_arr_2] first. *)
Theorem main_prints_equal_arrays (n fuel : nat) :
  (n <= fuel)%nat -> Z.of_nat n < Cxx.INT_MAX ->
  exists s' : Iterators.state Z,
    Iterators.main fuel (Z.of_nat n) Iterators.initial
    = Cxx.Ok (Some ("The arrays are equal"%string
                    :: ((fun e => (pretty e ++ " " ++ pretty e)%string)
                          <$> seqZ 1 (Z.of_nat n))), s')
    /\ Iterators.objs s' = ∅
    /\ Iterators.blocks (Iterators.mem s') = ∅
    /\ Iterators.released (Iterators.mem s') = [0; 1]%nat.
Proof.
  intros Hfuel Hmax.
  assert (Z.of_nat n <= Cxx.PTRDIFF_MAX) as Hptr
    by (unfold Cxx.INT_MAX, Cxx.PTRDIFF_MAX in *; lia).
  assert (Z.of_nat n < 2 ^ 32) as Huint by (unfold Cxx.INT_MAX in *; lia).
  unfold Iterators.main.
  (* dyn_arr_1(N) *)
  unfold Iterators.bind at 1. rewrite ctor_size_exec by done.
  unfold Iterators.bind_fresh, Iterators.initial. state_fields. rewrite Nat2Z.id.
  unfold Iterators.bind at 1. unfold Iterators.get at 1.
  state_fields. rewrite lookup_insert_eq.
  (* std::ranges::iota(dyn_arr_1, 1) *)
  unfold Iterators.bind at 1.
  rewrite (ranges_iota_block 0 n (replicate n (Some 0)));
    [|block_lookup|by rewrite length_replicate|done|lia
     |unfold Cxx.INT_MAX in *; lia].
  unfold Iterators.with_blocks. state_fields.
  rewrite insert_insert_eq.
  (* dyn_arr_2(N) *)
  unfold Iterators.bind at 1. rewrite ctor_size_exec by done.
  unfold Iterators.bind_fresh. state_fields. rewrite Nat2Z.id.
  unfold Iterators.bind at 1. unfold Iterators.get at 1.
  state_fields. rewrite lookup_insert_eq.
  (* std::ranges::fill(dyn_arr_2, 1) *)
  unfold Iterators.bind at 1.
  rewrite (ranges_fill_block 1 n (replicate n (Some 0)));
    [|block_lookup|by rewrite length_replicate|done].
  unfold Iterators.with_blocks. state_fields.
  rewrite insert_insert_eq.
  change (Iterators.to_uint 1) with 1.
  (* std::inclusive_scan(dyn_arr_2.begin(), dyn_arr_2.end(), dyn_arr_2.begin()) *)
  unfold Iterators.bind at 1.
  match goal with
  | |- context [Iterators.inclusive_scan _ _ _ _ ?s] =>
      destruct (inclusive_scan_in_place 1 n (replicate n 1) s fuel) as (r & Hscan);
        [block_lookup|by rewrite length_replicate|done|]
  end.
  rewrite Hscan. clear Hscan.
  unfold Iterators.with_blocks. state_fields.
  rewrite insert_insert_eq. rewrite inclusive_scan_ones by done.
  set (cs := Some <$> seqZ 1 (Z.of_nat n)).
  assert (length cs = n) as Hlen by (unfold cs; rewrite length_fmap, length_seqZ; lia).
  match goal with |- context [Iterators.bind _ _ ?s0] => set (s := s0) end.
  assert (Iterators.owns (Iterators.mem s)
            {| Iterators.size_ := Z.of_nat n;
               Iterators.values_ := {| Iterators.blk := Some 0%nat; Iterators.off := 0 |} |} cs)
    as Hown1 by (apply block_owned; [unfold s; block_lookup|done..]).
  assert (Iterators.owns (Iterators.mem s)
            {| Iterators.size_ := Z.of_nat n;
               Iterators.values_ := {| Iterators.blk := Some 1%nat; Iterators.off := 0 |} |} cs)
    as Hown2 by (apply block_owned; [unfold s; block_lookup|done..]).
  assert (length cs <= fuel)%nat as Hfuel' by (by rewrite Hlen).
  (* std::ranges::equal(dyn_arr_1, dyn_arr_2) *)
  unfold Iterators.bind at 1. unfold Iterators.ranges_equal.
  unfold Iterators.bind at 1. rewrite (read_all_owned _ cs s fuel Hown1 Hfuel').
  unfold Iterators.bind at 1. rewrite (read_all_owned _ cs s fuel Hown2 Hfuel').
  unfold Iterators.ret at 1. rewrite bool_decide_eq_true_2 by done.
  (* the loop over the pairs *)
  unfold Iterators.bind at 1. unfold Iterators.print_pairs.
  unfold Iterators.bind at 1. rewrite (read_all_owned _ cs s fuel Hown1 Hfuel').
  unfold Iterators.bind at 1. rewrite (read_all_owned _ cs s fuel Hown2 Hfuel').
  unfold Iterators.ret at 1. unfold cs at 1 2. rewrite pair_lines_same.
  (* the destructors, dyn_arr_2 first *)
  unfold Iterators.bind at 1.
  rewrite (dtor_exec 1 _ cs s) by (done || (unfold s; state_fields; by rewrite lookup_insert_eq)).
  assert (Iterators.forget 1 (Iterators.relinquish 1 s)
          = {| Iterators.objs :=
                 <[0%nat := {| Iterators.size_ := Z.of_nat n;
                               Iterators.values_ :=
                                 {| Iterators.blk := Some 0%nat; Iterators.off := 0 |} |}]> ∅;
               Iterators.mem := {| Iterators.blocks := <[0%nat := cs]> ∅;
                                   Iterators.next_block := 2;
                                   Iterators.released := [1%nat] |} |}) as ->.
  { unfold Iterators.forget, Iterators.relinquish, s. state_fields.
    rewrite lookup_insert_eq. unfold Iterators.after_delete.
    cbn [Iterators.values_ Iterators.blk]. state_fields.
    rewrite !delete_insert_eq, !delete_insert_ne, !delete_empty by done. reflexivity. }
  clear s Hown1 Hown2.
  match goal with |- context [Iterators.bind _ _ ?s0] => set (s := s0) end.
  unfold Iterators.bind at 1.
  rewrite (dtor_exec 0 {| Iterators.size_ := Z.of_nat n;
                          Iterators.values_ :=
                            {| Iterators.blk := Some 0%nat; Iterators.off := 0 |} |} cs s);
    [|unfold s; state_fields; by rewrite lookup_insert_eq
     |apply block_owned; [unfold s; block_lookup|done..]].
  exists (Iterators.forget 0 (Iterators.relinquish 0 s)). split; [reflexivity|].
  unfold Iterators.forget, Iterators.relinquish, s. state_fields.
  rewrite lookup_insert_eq. unfold Iterators.after_delete.
  cbn [Iterators.values_ Iterators.blk]. state_fields.
  by rewrite !delete_insert_eq, !delete_empty.
Qed.

(** With three elements. *)
Lemma main_prints_equal_arrays_witness :
  exists s' : Iterators.state Z,
    Iterators.main 3 (Z.of_nat 3) Iterators.initial
    = Cxx.Ok (Some ["The arrays are equal"; "1 1"; "2 2"; "3 3"]%string, s')
    /\ Iterators.objs s' = ∅
    /\ Iterators.blocks (Iterators.mem s') = ∅
    /\ Iterators.released (Iterators.mem s') = [0; 1]%nat.
Proof.
  exact (main_prints_equal_arrays 3 3 ltac:(lia) ltac:(unfold Cxx.INT_MAX; lia)).
Defined.
